(** * centroFlye: the ELTR polisher ([scripts/eltr_polisher.py])

    A shallow embedding of the reading of the placement file
    ([read_reported_positions]), of the polisher's coordinate bookkeeping
    ([ELTR_Polisher.__init__], [map_pos2read]), of the choice of the
    median read unit ([export_read_units]), of the assembly of the polished
    units ([read_polishing]) and of the two reporting steps
    ([compare_polished_sequences], [export_results]), followed by the
    properties of these functions.

    Conventions.  Python [int] is [Z]; [str] is [string] (one character per
    byte: the sequences and identifiers handled here are ASCII); a [dict]
    is an association list in insertion order with unique keys; an
    exception is the [Raise] branch of [result]; what a function writes is
    the list of [event]s it returns next to its result. *)

From Stdlib Require Import ZArith String Ascii DecimalString.
From Stdlib Require DecimalZ DecimalPos.
From stdpp Require Import base list strings sorting gmap.

Local Open Scope Z_scope.

(** ** Exceptions and results *)

(** The argument of a [KeyError]: the key that was looked up. *)
Inductive pykey : Type :=
| KStr (s : string)
| KInt (z : Z)
| KNone.

Inductive exn : Type :=
| KeyError (k : pykey)
| IndexError
| StatisticsError
| AssertionError
| ValueError
| IOError (path : string)
| CalledProcessError.

Inductive result (A : Type) : Type :=
| Ok (a : A)
| Raise (e : exn).

Arguments Ok {A} a.
Arguments Raise {A} e.

Definition result_bind {A B : Type} (m : result A) (f : A → result B) : result B :=
  match m with
  | Ok a => f a
  | Raise e => Raise e
  end.

Notation "'let!' x ':=' m 'in' k" := (result_bind m (fun x => k))
  (at level 10, x pattern, m at level 100, k at level 200).

(** ** Insertion-ordered dictionaries *)

Section dict.
Context {K V : Type} `{!EqDecision K}.

Fixpoint dict_get (d : list (K * V)) (k : K) : option V :=
  match d with
  | [] => None
  | (k', v) :: d' => if decide (k' = k) then Some v else dict_get d' k
  end.

(** [d[k] = v]: an existing key keeps its place, a new key goes last. *)
Fixpoint dict_set (d : list (K * V)) (k : K) (v : V) : list (K * V) :=
  match d with
  | [] => [(k, v)]
  | (k', v') :: d' =>
      if decide (k' = k) then (k, v) :: d' else (k', v') :: dict_set d' k v
  end.

Definition dict_keys (d : list (K * V)) : list K := d.*1.

Definition dict_values (d : list (K * V)) : list V := d.*2.

(** [d[k]] as an expression. *)
Definition dict_getitem (key_of : K → pykey) (d : list (K * V)) (k : K) : result V :=
  match dict_get d k with
  | Some v => Ok v
  | None => Raise (KeyError (key_of k))
  end.

End dict.

(** ** Built-ins *)

(** [range(a, b)]. *)
Definition range (a b : Z) : list Z := seqZ a (b - a).

(** [len] of a list. *)
Definition len {A : Type} (l : list A) : Z := Z.of_nat (length l).

(** [l[i]] on a list: a negative index counts from the end. *)
Definition list_getitem {A : Type} (l : list A) (i : Z) : result A :=
  let j := if decide (i < 0) then i + len l else i in
  if decide (0 ≤ j) then
    match l !! Z.to_nat j with
    | Some x => Ok x
    | None => Raise IndexError
    end
  else Raise IndexError.

(** [str(z)] for an [int]. *)
Definition str_int (z : Z) : string := NilZero.string_of_int (Z.to_int z).

(** [c.upper()] for one ASCII character. *)
Definition ascii_upper (c : ascii) : ascii :=
  let n := N_of_ascii c in
  if decide (97 ≤ n ∧ n ≤ 122)%N then ascii_of_N (n - 32) else c.

(** [s.upper()]. *)
Fixpoint upper (s : string) : string :=
  match s with
  | EmptyString => EmptyString
  | String c s' => String (ascii_upper c) (upper s')
  end.

(** [s.replace(c, '')] for a one-character [c]. *)
Fixpoint remove_char (c : ascii) (s : string) : string :=
  match s with
  | EmptyString => EmptyString
  | String c' s' =>
      if decide (c' = c) then remove_char c s' else String c' (remove_char c s')
  end.

(** [sorted] on a list of [str]: by code points. *)
Definition sorted_str (l : list string) : list string := merge_sort String.le l.

(** [sorted] on a list of lengths. *)
Definition sorted_nat (l : list nat) : list nat := merge_sort Nat.le l.

(** [statistics.median_high]. *)
Definition median_high (data : list nat) : result nat :=
  let data := sorted_nat data in
  let n := length data in
  match data !! (n / 2)%nat with
  | Some x => Ok x
  | None => Raise StatisticsError
  end.

(** [min] and [max] of a sequence of [int]. *)
Definition min_of (l : list Z) : result Z :=
  match l with
  | [] => Raise ValueError
  | x :: l' => Ok (foldl Z.min x l')
  end.

Definition max_of (l : list Z) : result Z :=
  match l with
  | [] => Raise ValueError
  | x :: l' => Ok (foldl Z.max x l')
  end.

(** ** Data model *)

(** Modelled from the spec: the per-occurrence record of a motif alignment,
    built by [ncrf_parser] (not part of this source file): "each record
    carries an aligned read substring (with gap symbols)".  The polisher
    reads no other field than [r_al]. *)
Record MotifAlignmentRecord : Type := { r_al : string }.

(** The value of [--max-pos]: an [int], or the default [math.inf]. *)
Inductive bound : Type :=
| Inf
| Int (z : Z).

(** The parsed command line ([main]). *)
Record Params : Type := {
  p_outdir : string;
  p_flye_bin : string;
  p_error_mode : string;
  p_num_iters : Z;
  p_num_threads : Z;
  p_min_pos : Z;
  p_max_pos : bound
}.

Record ELTR_Polisher : Type := {
  params : Params;
  motif_alignments : gmap string (list MotifAlignmentRecord);
  read_placement : list (string * option Z);
  max_pos : Z;
  min_pos : Z
}.

(** [read_reported_positions], on the lines of the placement file already
    split into the read identifier and the position ([None] for the word
    [None]): a later line for the same read overwrites the earlier one. *)
Definition read_reported_positions (lines : list (string * option Z))
  : list (string * option Z) :=
  foldl (fun pos line => dict_set pos line.1 line.2) [] lines.

(** [self.motif_alignments[r_id]]. *)
Definition motif_getitem (mas : gmap string (list MotifAlignmentRecord)) (r_id : string)
  : result (list MotifAlignmentRecord) :=
  match mas !! r_id with
  | Some ma => Ok ma
  | None => Raise (KeyError (KStr r_id))
  end.

(** ** [ELTR_Polisher.__init__]: the bounds *)

(** The loop of lines 47-51, from the current value of [self.max_pos]. *)
Fixpoint resolve_max_pos (mas : gmap string (list MotifAlignmentRecord))
    (items : list (string * option Z)) (cur : Z) : result Z :=
  match items with
  | [] => Ok cur
  | (r_id, None) :: rest => resolve_max_pos mas rest cur
  | (r_id, Some pos) :: rest =>
      let! ma := motif_getitem mas r_id in
      resolve_max_pos mas rest (Z.max cur (pos + len ma))
  end.

(** Lines 43-51, once the report and the placement file are loaded. *)
Definition init (ps : Params) (mas : gmap string (list MotifAlignmentRecord))
    (rp : list (string * option Z)) : result ELTR_Polisher :=
  let! mx := match p_max_pos ps with
             | Int z => Ok z
             | Inf => resolve_max_pos mas rp 0
             end in
  Ok {| params := ps; motif_alignments := mas; read_placement := rp;
        max_pos := mx; min_pos := p_min_pos ps |}.

(** ** [map_pos2read]: the position resolver *)

(** The list stored under [k], empty for an absent key. *)
Definition pool (pos2read : list (Z * list (string * Z))) (k : Z) : list (string * Z) :=
  default [] (dict_get pos2read k).

(** [pos2read[k].append(x)] on a [defaultdict(list)]. *)
Definition pos2read_append (pos2read : list (Z * list (string * Z))) (k : Z)
    (x : string * Z) : list (Z * list (string * Z)) :=
  dict_set pos2read k (pool pos2read k ++ [x]).

(** Lines 59-62: the local indices that are tried, [n] being [len(ma)]. *)
Definition positions (self : ELTR_Polisher) (pos n : Z) : list Z :=
  if decide (pos = min_pos self ∨ pos + n = max_pos self)
  then range 0 n
  else range 1 (n - 1).

(** Lines 63-65. *)
Definition add_occurrences (self : ELTR_Polisher) (r_id : string) (pos : Z)
    (idxs : list Z) (pos2read : list (Z * list (string * Z)))
  : list (Z * list (string * Z)) :=
  foldl (fun acc i =>
           if decide (min_pos self ≤ pos + i ≤ max_pos self)
           then pos2read_append acc (pos + i) (r_id, i)
           else acc)
        pos2read idxs.

(** The loop of lines 55-65 over the remaining items of [read_placement]. *)
Fixpoint map_pos2read_from (self : ELTR_Polisher) (items : list (string * option Z))
    (pos2read : list (Z * list (string * Z))) : result (list (Z * list (string * Z))) :=
  match items with
  | [] => Ok pos2read
  | (r_id, None) :: rest => map_pos2read_from self rest pos2read
  | (r_id, Some pos) :: rest =>
      if decide (pos > max_pos self) then map_pos2read_from self rest pos2read
      else
        let! ma := motif_getitem (motif_alignments self) r_id in
        map_pos2read_from self rest
          (add_occurrences self r_id pos (positions self pos (len ma)) pos2read)
  end.

Definition map_pos2read (self : ELTR_Polisher) : result (list (Z * list (string * Z))) :=
  map_pos2read_from self (read_placement self) [].

(** What the loop of [map_pos2read] adds for the read [r]: the local index
    [i] at the position [k]. *)
Definition contributes (self : ELTR_Polisher) (items : list (string * option Z))
    (r : string) (i k : Z) : Prop :=
  ∃ pos ma,
    (r, Some pos) ∈ items ∧ pos ≤ max_pos self ∧
    motif_alignments self !! r = Some ma ∧
    i ∈ positions self pos (len ma) ∧
    min_pos self ≤ pos + i ≤ max_pos self ∧ k = pos + i.

(** ** Paths and output events *)

(** [posixpath.join(a, b)]. *)
Definition path_join (a b : string) : string :=
  if String.prefix "/" b then b
  else if decide (a = EmptyString) then b
  else if decide (last (list_ascii_of_string a) = Some "/"%char) then a +:+ b
  else a +:+ "/" +:+ b.

Fixpoint drop_while {A : Type} (f : A → bool) (l : list A) : list A :=
  match l with
  | [] => []
  | x :: l' => if f x then drop_while f l' else l
  end.

(** [posixpath.dirname(p)]: everything up to the last slash, without the
    slashes that end it unless it consists of slashes only. *)
Definition path_dirname (p : string) : string :=
  let is_sep := fun c : ascii => bool_decide (c = "/"%char) in
  let not_sep := fun c : ascii => negb (is_sep c) in
  let head := rev (drop_while not_sep (rev (list_ascii_of_string p))) in
  if forallb is_sep head then string_of_list_ascii head
  else string_of_list_ascii (rev (drop_while is_sep (rev head))).

(** What the polisher writes or launches. *)
Inductive event : Type :=
| Makedirs (path : string)
| WriteBioSeqs (fn : string) (seqs : list (string * string))
| Print (line : string)
| CheckCall (cmd : list string)
| OpenWrite (fn : string)
| PrintTo (fn : string) (line : string).

(** A computation that leaves a trace: the events emitted so far stay when
    an exception is raised. *)
Definition io (A : Type) : Type := (list event * result A)%type.

Definition io_ret {A : Type} (a : A) : io A := ([], Ok a).

Definition io_bind {A B : Type} (m : io A) (f : A → io B) : io B :=
  match m with
  | (t, Ok a) => let '(t', r) := f a in (t ++ t', r)
  | (t, Raise e) => (t, Raise e)
  end.

Definition emit (e : event) : io unit := ([e], Ok tt).

Definition lift {A : Type} (r : result A) : io A := ([], r).

Notation "'do!' x ':=' m 'in' k" := (io_bind m (fun x => k))
  (at level 10, x pattern, m at level 100, k at level 200).

(** ** [export_read_units]: the pool builder *)

(** The name of a candidate: [f'gen_pos={pos}|r_id={r_id}|r_pos={p}']. *)
Definition seq_name (pos : Z) (r_id : string) (p : Z) : string :=
  "gen_pos=" +:+ str_int pos +:+ "|r_id=" +:+ r_id +:+ "|r_pos=" +:+ str_int p.

(** Line 80: [r_al.upper().replace('-', '')]. *)
Definition clean (s : string) : string := remove_char "-"%char (upper s).

(** Lines 78-81: the candidates of one position. *)
Fixpoint collect_seqs (self : ELTR_Polisher) (pos : Z) (occs : list (string * Z))
    (seqs : list (string * string)) : result (list (string * string)) :=
  match occs with
  | [] => Ok seqs
  | (r_id, p) :: rest =>
      let! ma := motif_getitem (motif_alignments self) r_id in
      let! rec := list_getitem ma p in
      collect_seqs self pos rest (dict_set seqs (seq_name pos r_id p) (clean (r_al rec)))
  end.

(** Lines 85-90: the scan of the sorted names, left at the first candidate of
    the median length; the result is [(median_read_unit, template_read)],
    which keeps its initial value (the empty string and [None]) when no candidate fits. *)
Fixpoint scan_median (seqs : list (string * string)) (med_len : nat)
    (names : list string) : result (string * option string) :=
  match names with
  | [] => Ok (EmptyString, None)
  | r_id :: rest =>
      let! r_al := dict_getitem KStr seqs r_id in
      if decide (String.length r_al = med_len) then Ok (r_al, Some r_id)
      else scan_median seqs med_len rest
  end.

(** Lines 82-92: the median length, the scan and the two assertions; the
    result is [(template_read, median_read_unit)]. *)
Definition select_median (seqs : list (string * string)) : result (string * string) :=
  let r_units_lens := String.length <$> dict_values seqs in
  let! med_len := median_high r_units_lens in
  let! (median_read_unit, template_read) :=
    scan_median seqs med_len (sorted_str (dict_keys seqs)) in
  match template_read with
  | None => Raise (KeyError KNone)
  | Some t =>
      let! tseq := dict_getitem KStr seqs t in
      if decide (String.length tseq = med_len) then
        if decide (String.length median_read_unit = med_len) then Ok (t, median_read_unit)
        else Raise AssertionError
      else Raise AssertionError
  end.

(** Lines 71-74: the directory of a position and its two files. *)
Definition pos_outdir (self : ELTR_Polisher) (pos : Z) : string :=
  path_join (p_outdir (params self)) ("pos_" +:+ str_int pos).

Definition units_fn_of (outdir : string) : string := path_join outdir "read_units.fasta".

Definition median_read_unit_fn_of (outdir : string) : string :=
  path_join outdir "median_read_unit.fasta".

(** The body of the loop of [export_read_units] for one position. *)
Definition export_pos (self : ELTR_Polisher) (pos : Z) (occs : list (string * Z))
  : io (string * string) :=
  let outdir := pos_outdir self pos in
  let units_fn := units_fn_of outdir in
  let median_read_unit_fn := median_read_unit_fn_of outdir in
  do! _ := emit (Makedirs outdir) in
  do! seqs := lift (collect_seqs self pos occs []) in
  do! (template_read, median_read_unit) := lift (select_median seqs) in
  do! _ := emit (WriteBioSeqs units_fn seqs) in
  do! _ := emit (WriteBioSeqs median_read_unit_fn [(template_read, median_read_unit)]) in
  io_ret (units_fn, median_read_unit_fn).

Fixpoint export_read_units_over (self : ELTR_Polisher)
    (pos2read : list (Z * list (string * Z))) (keys : list Z)
    (filenames : list (Z * (string * string))) : io (list (Z * (string * string))) :=
  match keys with
  | [] => io_ret filenames
  | pos :: rest =>
      do! fns := export_pos self pos (pool pos2read pos) in
      export_read_units_over self pos2read rest (dict_set filenames pos fns)
  end.

Definition export_read_units (self : ELTR_Polisher)
    (pos2read : list (Z * list (string * Z))) : io (list (Z * (string * string))) :=
  export_read_units_over self pos2read (dict_keys pos2read) [].

(** ** Polishing, assembly and reports *)

(** Modelled from the spec: [compress_homopolymer] of [utils.bio] (not part
    of this source file), "runs of identical symbols collapsed to one". *)
Fixpoint compress_homopolymer (s : string) : string :=
  match s with
  | EmptyString => EmptyString
  | String c s' =>
      match s' with
      | EmptyString => String c EmptyString
      | String c' _ =>
          if decide (c = c') then compress_homopolymer s'
          else String c (compress_homopolymer s')
      end
  end.

(** The file of the [i]-th polished sequence of the position whose units
    are in [units_fn] (lines 123-124). *)
Definition polished_seq_fn (units_fn : string) (i : Z) : string :=
  path_join (path_dirname units_fn) ("polished_" +:+ str_int i +:+ ".fasta").

(** The files of [compare_polished_sequences] and [export_results]. *)
Definition report_fn (self : ELTR_Polisher) : string :=
  path_join (p_outdir (params self)) "report.txt".

Definition final_fn (self : ELTR_Polisher) (i : Z) : string :=
  path_join (p_outdir (params self)) ("final_sequence_" +:+ str_int i +:+ ".fasta").

Definition final_hpc_fn (self : ELTR_Polisher) (i : Z) : string :=
  path_join (p_outdir (params self)) ("final_sequence_hpc_" +:+ str_int i +:+ ".fasta").

(** [f'polished_repeat_{i}']. *)
Definition polished_repeat (i : Z) : string := "polished_repeat_" +:+ str_int i.

(** The two titles printed for the pair [(i, i+1)]. *)
Definition raw_title (i : Z) : string :=
  "Alignment polishing seq " +:+ str_int i +:+ " vs " +:+ str_int (i + 1) +:+ ":".

Definition hpc_title (i : Z) : string :=
  "Alignment homopolymer compressed polishing seq " +:+ str_int i +:+ " vs "
  +:+ str_int (i + 1) +:+ ":".

Section pipeline.

(** The collaborators: [read_bio_seq] gives the sequence of a file as the
    output tree stands once the polishing tool has run; [check_call] is the
    outcome of launching a command; [edlib_align] is the text printed for
    the alignment of two sequences. *)
Variable read_bio_seq : string → result string.
Variable check_call : list string → result unit.
Variable edlib_align : string → string → string.

(** Lines 102-114. *)
Fixpoint run_polishing_over (self : ELTR_Polisher)
    (read_unit_filenames : list (Z * (string * string))) (max_pos : Z)
    (poss : list Z) : io unit :=
  match poss with
  | [] => io_ret tt
  | pos :: rest =>
      do! _ := emit (Print (str_int pos +:+ " " +:+ str_int max_pos)) in
      do! (units_fn, median_read_unit_fn) :=
        lift (dict_getitem KInt read_unit_filenames pos) in
      let pos_dir := path_dirname units_fn in
      let cmd := [p_flye_bin (params self);
                  "--" +:+ p_error_mode (params self) +:+ "-raw"; units_fn;
                  "--polish-target"; median_read_unit_fn;
                  "-i"; str_int (p_num_iters (params self));
                  "-t"; str_int (p_num_threads (params self));
                  "-o"; pos_dir] in
      do! _ := emit (Print (String.concat " " cmd)) in
      do! _ := emit (CheckCall cmd) in
      do! _ := lift (check_call cmd) in
      run_polishing_over self read_unit_filenames max_pos rest
  end.

Definition run_polishing (self : ELTR_Polisher)
    (read_unit_filenames : list (Z * (string * string))) : io unit :=
  do! min_pos := lift (min_of (dict_keys read_unit_filenames)) in
  do! max_pos := lift (max_of (dict_keys read_unit_filenames)) in
  run_polishing_over self read_unit_filenames max_pos (range min_pos (max_pos + 1)).

(** Lines 122-126: one pass over the items of [read_unit_filenames]. *)
Fixpoint read_polished (i : Z) (items : list (Z * (string * string)))
    (polished_seqs : list (Z * string)) : result (list (Z * string)) :=
  match items with
  | [] => Ok polished_seqs
  | (pos, (units_fn, _)) :: rest =>
      let! polished_seq := read_bio_seq (polished_seq_fn units_fn i) in
      read_polished i rest (dict_set polished_seqs pos polished_seq)
  end.

(** Line 128: [[polished_seqs[pos] for pos in range(min_pos, max_pos + 1)]]. *)
Fixpoint gather (polished_seqs : list (Z * string)) (poss : list Z) : result (list string) :=
  match poss with
  | [] => Ok []
  | pos :: rest =>
      let! s := dict_getitem KInt polished_seqs pos in
      let! ss := gather polished_seqs rest in
      Ok (s :: ss)
  end.

(** The loop of lines 121-130; [polished_seqs] is carried from one
    iteration to the next. *)
Fixpoint read_polishing_over (read_unit_filenames : list (Z * (string * string)))
    (min_pos max_pos : Z) (iters : list Z) (polished_seqs : list (Z * string))
    (final_sequences : list (Z * string)) : result (list (Z * string)) :=
  match iters with
  | [] => Ok final_sequences
  | i :: rest =>
      let! polished_seqs := read_polished i read_unit_filenames polished_seqs in
      let! final_sequence := gather polished_seqs (range min_pos (max_pos + 1)) in
      read_polishing_over read_unit_filenames min_pos max_pos rest polished_seqs
        (dict_set final_sequences i (String.concat EmptyString final_sequence))
  end.

Definition read_polishing (self : ELTR_Polisher)
    (read_unit_filenames : list (Z * (string * string))) : result (list (Z * string)) :=
  let! min_pos := min_of (dict_keys read_unit_filenames) in
  let! max_pos := max_of (dict_keys read_unit_filenames) in
  read_polishing_over read_unit_filenames min_pos max_pos
    (range 1 (p_num_iters (params self) + 1)) [] [].

(** Lines 137-146: the four lines printed for the pair [(i, i+1)]. *)
Definition compare_pair (report_fn : string) (final_sequences : list (Z * string))
    (i : Z) : io unit :=
  do! seq_i := lift (dict_getitem KInt final_sequences i) in
  do! seq_i1 := lift (dict_getitem KInt final_sequences (i + 1)) in
  do! _ := emit (PrintTo report_fn (raw_title i)) in
  do! _ := emit (PrintTo report_fn (edlib_align seq_i seq_i1)) in
  do! hpc_seq_i := lift (dict_getitem KInt final_sequences i) in
  do! hpc_seq_i1 := lift (dict_getitem KInt final_sequences (i + 1)) in
  do! _ := emit (PrintTo report_fn (hpc_title i)) in
  emit (PrintTo report_fn
          (edlib_align (compress_homopolymer hpc_seq_i) (compress_homopolymer hpc_seq_i1))).

Fixpoint compare_over (report_fn : string) (final_sequences : list (Z * string))
    (iters : list Z) : io unit :=
  match iters with
  | [] => io_ret tt
  | i :: rest =>
      do! _ := compare_pair report_fn final_sequences i in
      compare_over report_fn final_sequences rest
  end.

Definition compare_polished_sequences (self : ELTR_Polisher)
    (final_sequences : list (Z * string)) : io unit :=
  do! _ := emit (OpenWrite (report_fn self)) in
  compare_over (report_fn self) final_sequences (range 1 (p_num_iters (params self))).

(** Lines 150-157: the two files of iteration [i]. *)
Definition export_iteration (self : ELTR_Polisher) (final_sequences : list (Z * string))
    (i : Z) : io unit :=
  do! final_sequence := lift (dict_getitem KInt final_sequences i) in
  let final_sequence_hpc := compress_homopolymer final_sequence in
  do! _ := emit (WriteBioSeqs (final_fn self i) [(polished_repeat i, final_sequence)]) in
  emit (WriteBioSeqs (final_hpc_fn self i) [(polished_repeat i, final_sequence_hpc)]).

Fixpoint export_results_over (self : ELTR_Polisher) (final_sequences : list (Z * string))
    (iters : list Z) : io unit :=
  match iters with
  | [] => io_ret tt
  | i :: rest =>
      do! _ := export_iteration self final_sequences i in
      export_results_over self final_sequences rest
  end.

Definition export_results (self : ELTR_Polisher) (final_sequences : list (Z * string))
  : io unit :=
  export_results_over self final_sequences (range 1 (p_num_iters (params self) + 1)).

(** [run], lines 160-165. *)
Definition run (self : ELTR_Polisher) : io unit :=
  do! pos2read := lift (map_pos2read self) in
  do! read_unit_filenames := export_read_units self pos2read in
  do! _ := run_polishing self read_unit_filenames in
  do! final_sequences := lift (read_polishing self read_unit_filenames) in
  do! _ := compare_polished_sequences self final_sequences in
  export_results self final_sequences.

End pipeline.

(** ** Sample inputs *)

Definition unit_of (s : string) : MotifAlignmentRecord := {| r_al := s |}.

Definition sample_params (lo : Z) (hi : bound) (n : Z) : Params :=
  {| p_outdir := "out"; p_flye_bin := "flye"; p_error_mode := "nano";
     p_num_iters := n; p_num_threads := 16; p_min_pos := lo; p_max_pos := hi |}.

Definition sample_polisher (mas : gmap string (list MotifAlignmentRecord))
    (rp : list (string * option Z)) (lo hi n : Z) : ELTR_Polisher :=
  {| params := sample_params lo (Int hi) n; motif_alignments := mas;
     read_placement := rp; max_pos := hi; min_pos := lo |}.

(** One read of three occurrences. *)
Definition three_units : list MotifAlignmentRecord :=
  [unit_of "AAC"; unit_of "a-cg"; unit_of "CGT"].

Definition one_read : gmap string (list MotifAlignmentRecord) :=
  {[ "r1" := three_units ]}.

(** The read starts at [min_pos = 0]; the window ends at 10, far from the
    end of the read. *)
Definition anchored_start : ELTR_Polisher :=
  sample_polisher one_read [("r1", Some 0)] 0 10 2.

Definition anchored_start_pool : list (Z * list (string * Z)) :=
  [(0, [("r1", 0)]); (1, [("r1", 1)]); (2, [("r1", 2)])].

(** The same read in a window whose bounds are swapped. *)
Definition inverted_window : ELTR_Polisher :=
  sample_polisher one_read [("r1", Some 0)] 5 3 2.

(** The same read placed before the origin. *)
Definition negative_placement : list (string * option Z) := [("r1", Some (-10))].

(** A placed read, an unplaced read and a read placed beyond the window. *)
Definition three_reads : gmap string (list MotifAlignmentRecord) :=
  {[ "r1" := three_units; "r0" := three_units; "r9" := three_units ]}.

Definition mixed_placement : list (string * option Z) :=
  [("r1", Some 4); ("r0", None); ("r9", Some 50)].

Definition mixed : ELTR_Polisher := sample_polisher three_reads mixed_placement 0 10 2.

Definition mixed_pool : list (Z * list (string * Z)) := [(5, [("r1", 1)])].

(** Three reads of one occurrence each, all of length 5, pooled at
    position 7. *)
Definition equal_lengths : gmap string (list MotifAlignmentRecord) :=
  {[ "r1" := [unit_of "AACGT"]; "r2" := [unit_of "ACGTT"]; "r3" := [unit_of "ACCGT"] ]}.

Definition equal_lengths_polisher : ELTR_Polisher :=
  sample_polisher equal_lengths [("r1", Some 7); ("r2", Some 7); ("r3", Some 7)] 7 8 2.

Definition pool_at_7 : list (string * Z) := [("r1", 0); ("r2", 0); ("r3", 0)].

Definition seqs_at_7 : list (string * string) :=
  [("gen_pos=7|r_id=r1|r_pos=0", "AACGT"); ("gen_pos=7|r_id=r2|r_pos=0", "ACGTT");
   ("gen_pos=7|r_id=r3|r_pos=0", "ACCGT")].

(** A read of two occurrences in the window [[0, 2]]: the positions 0 and
    1 are pooled, the position 2 is not. *)
Definition two_units : gmap string (list MotifAlignmentRecord) :=
  {[ "r1" := [unit_of "AAC"; unit_of "ACG"] ]}.

Definition short_read : ELTR_Polisher :=
  sample_polisher two_units [("r1", Some 0)] 0 2 2.

Definition short_read_pool : list (Z * list (string * Z)) :=
  [(0, [("r1", 0)]); (1, [("r1", 1)])].

Definition short_read_filenames : list (Z * (string * string)) :=
  [(0, ("out/pos_0/read_units.fasta", "out/pos_0/median_read_unit.fasta"));
   (1, ("out/pos_1/read_units.fasta", "out/pos_1/median_read_unit.fasta"))].

(** An output tree with two polished sequences for each of the positions
    0 and 1, and nothing else. *)
Definition two_positions_tree (fn : string) : result string :=
  if decide (fn = "out/pos_0/polished_1.fasta") then Ok "AAC"
  else if decide (fn = "out/pos_1/polished_1.fasta") then Ok "ACG"
  else if decide (fn = "out/pos_0/polished_2.fasta") then Ok "AAAC"
  else if decide (fn = "out/pos_1/polished_2.fasta") then Ok "ACGG"
  else Raise (IOError fn).

Definition two_positions_finals : list (Z * string) := [(1, "AACACG"); (2, "AAACACGG")].

(** A stand-in for the text of an alignment. *)
Definition sample_align (a b : string) : string := a +:+ " ~ " +:+ b.

(** The filenames of the positions 0 and 2, with none for the position 1
    between them. *)
Definition gapped_filenames : list (Z * (string * string)) :=
  [(0, ("out/pos_0/read_units.fasta", "out/pos_0/median_read_unit.fasta"));
   (2, ("out/pos_2/read_units.fasta", "out/pos_2/median_read_unit.fasta"))].

(** An output tree with the polished sequences of the positions 0 and 2. *)
Definition gapped_tree (fn : string) : result string :=
  if decide (fn = "out/pos_0/polished_1.fasta") then Ok "AAC"
  else if decide (fn = "out/pos_2/polished_1.fasta") then Ok "CGT"
  else if decide (fn = "out/pos_0/polished_2.fasta") then Ok "AAAC"
  else if decide (fn = "out/pos_2/polished_2.fasta") then Ok "CGGT"
  else Raise (IOError fn).

(** A filenames table with a hole at the position 1, and a tool that fails
    on the units of the position 1. *)
Definition three_filenames : list (Z * (string * string)) :=
  [(0, ("out/pos_0/read_units.fasta", "out/pos_0/median_read_unit.fasta"));
   (1, ("out/pos_1/read_units.fasta", "out/pos_1/median_read_unit.fasta"));
   (2, ("out/pos_2/read_units.fasta", "out/pos_2/median_read_unit.fasta"))].

Definition fails_at_1 (cmd : list string) : result unit :=
  if decide ("out/pos_1/read_units.fasta" ∈ cmd) then Raise CalledProcessError else Ok tt.

(** Two reads that pool the positions 0 and 2 and leave the position 1
    between them without occurrence. *)
Definition gapped_reads : ELTR_Polisher :=
  sample_polisher {[ "r1" := [unit_of "AAC"]; "r2" := three_units ]}
    [("r1", Some 0); ("r2", Some 1)] 0 10 2.

Definition gapped_pool : list (Z * list (string * Z)) :=
  [(0, [("r1", 0)]); (2, [("r2", 1)])].

(** ** Vocabulary of the statements *)

(** [s] is the [i]-th polished sequence of the position [pos]: the content
    of [polished_{i}.fasta] next to the units of [pos] (lines 123-125). *)
Definition artifact (read_bio_seq : string → result string)
    (read_unit_filenames : list (Z * (string * string))) (i pos : Z) (s : string) : Prop :=
  ∃ units_fn median_fn,
    dict_get read_unit_filenames pos = Some (units_fn, median_fn) ∧
    read_bio_seq (polished_seq_fn units_fn i) = Ok s.

(** An event without the text of a report line. *)
Definition blank (e : event) : event :=
  match e with
  | PrintTo fn _ => PrintTo fn EmptyString
  | _ => e
  end.

(** The entries that the item [(r_id, pos)] of [read_placement] puts under
    the position [k] (lines 56-65), in the order in which they are appended. *)
Definition pooled_at (self : ELTR_Polisher) (k : Z) (item : string * option Z)
  : list (string * Z) :=
  match item.2 with
  | Some pos =>
      if decide (pos > max_pos self) then []
      else (λ i, (item.1, i)) <$>
           filter (λ i, min_pos self ≤ pos + i ≤ max_pos self ∧ pos + i = k)
                  (positions self pos
                     (len (default [] (motif_alignments self !! item.1))))
  | None => []
  end.

(** The command of lines 106-112 for the two files of one position. *)
Definition flye_cmd (self : ELTR_Polisher) (units_fn median_read_unit_fn : string)
  : list string :=
  [p_flye_bin (params self);
   "--" +:+ p_error_mode (params self) +:+ "-raw"; units_fn;
   "--polish-target"; median_read_unit_fn;
   "-i"; str_int (p_num_iters (params self));
   "-t"; str_int (p_num_threads (params self));
   "-o"; path_dirname units_fn].

(** What [run_polishing] leaves for a position whose files are known and
    whose command returns: the two printed lines and the call. *)
Definition polish_events (self : ELTR_Polisher)
    (read_unit_filenames : list (Z * (string * string))) (max_pos pos : Z) : list event :=
  match dict_get read_unit_filenames pos with
  | Some (units_fn, median_read_unit_fn) =>
      [Print (str_int pos +:+ " " +:+ str_int max_pos);
       Print (String.concat " " (flye_cmd self units_fn median_read_unit_fn));
       CheckCall (flye_cmd self units_fn median_read_unit_fn)]
  | None => []
  end.

(** A decimal digit. *)
Definition is_digit (c : ascii) : Prop := (48 ≤ N_of_ascii c ∧ N_of_ascii c ≤ 57)%N.

(** Two runs that differ at most in the text of the report lines. *)
Definition io_sim {A : Type} (m1 m2 : io A) : Prop :=
  blank <$> m1.1 = blank <$> m2.1 ∧ m1.2 = m2.2.

(** ** The text of the placement file *)

(** [c.isspace()] for a character below 256: what [str.strip()] removes. *)
Definition is_space (c : ascii) : bool :=
  let n := N_of_ascii c in
  bool_decide ((9 ≤ n ∧ n ≤ 13) ∨ (28 ≤ n ∧ n ≤ 32) ∨ n = 133 ∨ n = 160)%N.

(** The white space [int] skips around a literal: as [is_space], without the
    four separators 28 to 31. *)
Definition is_int_space (c : ascii) : bool :=
  let n := N_of_ascii c in
  bool_decide ((9 ≤ n ∧ n ≤ 13) ∨ n = 32 ∨ n = 133 ∨ n = 160)%N.

(** The characters of [l] without the leading and the trailing ones that
    satisfy [f]. *)
Definition strip_with (f : ascii → bool) (l : list ascii) : list ascii :=
  reverse (drop_while f (reverse (drop_while f l))).

(** [s.strip()]. *)
Definition strip (s : string) : string :=
  string_of_list_ascii (strip_with is_space (list_ascii_of_string s)).

(** [s.split(sep)] for a separator of one character: empty words are kept,
    and the result is never empty. *)
Fixpoint split (sep : ascii) (s : string) : list string :=
  match s with
  | EmptyString => [EmptyString]
  | String c s' =>
      if decide (c = sep) then EmptyString :: split sep s'
      else match split sep s' with
           | w :: ws => String c w :: ws
           | [] => [String c EmptyString]
           end
  end.

(** The digits of a decimal literal without its sign: at least one digit,
    and single underscores between two digits only.  [after_digit] tells
    whether the character before [l] is a digit. *)
Fixpoint literal_digits (after_digit : bool) (l : list ascii) : option (list ascii) :=
  match l with
  | [] => if after_digit then Some [] else None
  | c :: l' =>
      if bool_decide (48 ≤ N_of_ascii c ∧ N_of_ascii c ≤ 57)%N
      then (c ::.) <$> literal_digits true l'
      else if decide (c = "_"%char)
           then (if after_digit then literal_digits false l' else None)
           else None
  end.

(** The number written by a list of decimal digits. *)
Definition digits_value (l : list ascii) : Z :=
  foldl (fun acc c => 10 * acc + (Z.of_N (N_of_ascii c) - 48)) 0 l.

(** [int(s)] for a string: white space around the literal is skipped, the
    literal is an optional sign and decimal digits, anything else is a
    [ValueError].  Literals of any length are read (no limit on the number
    of digits). *)
Definition py_int (s : string) : result Z :=
  match strip_with is_int_space (list_ascii_of_string s) with
  | [] => Raise ValueError
  | c :: b =>
      let body := if decide (c = "-"%char ∨ c = "+"%char) then b else c :: b in
      match literal_digits false body with
      | Some ds => Ok (if decide (c = "-"%char) then - digits_value ds else digits_value ds)
      | None => Raise ValueError
      end
  end.

(** One turn of the loop of [read_reported_positions] (lines 23 to 28): the
    read identifier and the position written on a line. *)
Definition parse_line (line : string) : result (string * option Z) :=
  let line := split " " (strip line) in
  let! r_id := list_getitem line 0 in
  let! p := list_getitem line 1 in
  if decide (p = "None") then Ok (r_id, None)
  else let! p := py_int p in Ok (r_id, Some p).

(** The loop of [read_reported_positions] over the lines of the file, each
    with its line end, from the table [pos]. *)
Fixpoint read_lines (lines : list string) (pos : list (string * option Z))
  : result (list (string * option Z)) :=
  match lines with
  | [] => Ok pos
  | line :: rest =>
      let! entry := parse_line line in
      read_lines rest (dict_set pos entry.1 entry.2)
  end.

(** [read_reported_positions] on the lines of the file as text. *)
Definition read_reported_positions_text (lines : list string)
  : result (list (string * option Z)) :=
  read_lines lines [].

(** The line end. *)
Definition newline : string := String "010"%char EmptyString.

(** The position field of a line: the word [None] or a number. *)
Definition position_field (p : option Z) : string :=
  match p with
  | None => "None"
  | Some z => str_int z
  end.

(** The line that holds an entry of the placement table. *)
Definition placement_line (entry : string * option Z) : string :=
  entry.1 +:+ " " +:+ position_field entry.2 +:+ newline.

(** A word: a string that is not empty and holds no white space. *)
Definition is_word (s : string) : Prop :=
  s ≠ EmptyString ∧ Forall (fun c => is_space c = false) (list_ascii_of_string s).

(** A string of white space only. *)
Definition is_blank (s : string) : Prop :=
  Forall (fun c => is_space c = true) (list_ascii_of_string s).

(** * Properties *)

(** ** Dictionaries *)

Section dict_facts.
Context {K V : Type} `{!EqDecision K}.
Implicit Types (d : list (K * V)) (k : K) (v : V).

Lemma dict_get_set_eq d k v : dict_get (dict_set d k v) k = Some v.
Proof.
  induction d as [|[k' v'] d IH]; simpl.
  - by rewrite decide_True.
  - destruct (decide (k' = k)) as [->|Hne]; simpl.
    + by rewrite decide_True.
    + by rewrite decide_False.
Qed.

Lemma dict_get_set_ne d k k' v : k ≠ k' → dict_get (dict_set d k v) k' = dict_get d k'.
Proof.
  intros Hne. induction d as [|[k0 v0] d IH]; simpl.
  - by rewrite decide_False.
  - destruct (decide (k0 = k)) as [->|Hk0]; simpl.
    + by rewrite !decide_False.
    + by rewrite IH.
Qed.

Lemma dict_get_Some d k v : dict_get d k = Some v → (k, v) ∈ d.
Proof.
  induction d as [|[k' v'] d IH]; simpl; [done|].
  destruct (decide (k' = k)) as [->|Hne].
  - intros [= ->]. apply list_elem_of_here.
  - intros H. apply list_elem_of_further. auto.
Qed.

Lemma dict_get_None d k : dict_get d k = None ↔ k ∉ dict_keys d.
Proof.
  unfold dict_keys. induction d as [|[k' v'] d IH]; simpl.
  - split; [intros _; apply not_elem_of_nil | done].
  - rewrite not_elem_of_cons. destruct (decide (k' = k)) as [->|Hne].
    + split; [done | intros [? _]; done].
    + rewrite IH. split; [intros H; split; [congruence | done] | by intros [_ H]].
Qed.

Lemma dict_get_NoDup d k v : NoDup (dict_keys d) → (k, v) ∈ d → dict_get d k = Some v.
Proof.
  unfold dict_keys. induction d as [|[k' v'] d IH]; simpl.
  - intros _ H. by apply elem_of_nil in H.
  - intros [Hk' Hnd]%NoDup_cons [Heq|Hin]%elem_of_cons.
    + injection Heq as -> ->. by rewrite decide_True.
    + rewrite decide_False; [by apply IH|].
      intros ->. apply Hk'. apply list_elem_of_fmap. by exists (k, v).
Qed.

Lemma dict_keys_set_in d k v : k ∈ dict_keys d → dict_keys (dict_set d k v) = dict_keys d.
Proof.
  unfold dict_keys. induction d as [|[k' v'] d IH]; csimpl.
  - intros H. by apply elem_of_nil in H.
  - intros H. destruct (decide (k' = k)) as [->|Hne]; csimpl; [done|].
    apply elem_of_cons in H as [->|H]; [done|]. by rewrite IH.
Qed.

Lemma dict_keys_set_notin d k v :
  k ∉ dict_keys d → dict_keys (dict_set d k v) = dict_keys d ++ [k].
Proof.
  unfold dict_keys. induction d as [|[k' v'] d IH]; csimpl; [done|].
  intros [Hne Hnin]%not_elem_of_cons.
  rewrite decide_False by done. csimpl. by rewrite IH.
Qed.

Lemma dict_set_NoDup d k v : NoDup (dict_keys d) → NoDup (dict_keys (dict_set d k v)).
Proof.
  intros Hnd. destruct (decide (k ∈ dict_keys d)) as [Hin|Hnin].
  - by rewrite dict_keys_set_in.
  - rewrite dict_keys_set_notin by done.
    apply NoDup_app. split_and!; [done | | apply NoDup_singleton].
    intros x Hx ->%list_elem_of_singleton. done.
Qed.

End dict_facts.

Ltac solve_occ :=
  split_and!;
  first [ done | by apply list_elem_of_here | by apply list_elem_of_further | lia ].


(** The placement table read from the file is a dictionary: no read has
    two entries. *)
Lemma read_reported_positions_NoDup lines :
  NoDup (dict_keys (read_reported_positions lines)).
Proof.
  unfold read_reported_positions.
  assert (H : ∀ d : list (string * option Z), NoDup (dict_keys d) →
            NoDup (dict_keys (foldl (λ pos line, dict_set pos line.1 line.2) d lines))).
  { induction lines as [|line lines IH]; intros d Hd; simpl; [done|].
    apply IH. by apply dict_set_NoDup. }
  apply H, NoDup_nil_2.
Qed.

(** ** The position resolver *)

Lemma pool_append d k x k' :
  pool (pos2read_append d k x) k' =
  if decide (k = k') then pool d k ++ [x] else pool d k'.
Proof.
  unfold pos2read_append. unfold pool at 1. case_decide as H.
  - subst. by rewrite dict_get_set_eq.
  - by rewrite dict_get_set_ne.
Qed.

Lemma pos2read_append_keys d k x k' :
  k' ∈ dict_keys (pos2read_append d k x) ↔ k' ∈ dict_keys d ∨ k' = k.
Proof.
  unfold pos2read_append. destruct (decide (k ∈ dict_keys d)) as [Hin|Hnin].
  - rewrite dict_keys_set_in by done. split; [by left | by intros [?| ->]].
  - rewrite dict_keys_set_notin by done. rewrite elem_of_app, list_elem_of_singleton. done.
Qed.

Lemma add_occurrences_pool self r0 pos idxs d k x :
  x ∈ pool (add_occurrences self r0 pos idxs d) k ↔
  x ∈ pool d k ∨
  ∃ i, x = (r0, i) ∧ i ∈ idxs ∧ min_pos self ≤ pos + i ≤ max_pos self ∧ k = pos + i.
Proof.
  unfold add_occurrences. revert d.
  induction idxs as [|j idxs IH]; intros d; simpl.
  - split; [by left|]. intros [?|(i & _ & Hi & _)]; [done|]. by apply elem_of_nil in Hi.
  - rewrite IH. clear IH. case_decide as Hw.
    + rewrite pool_append. case_decide as Hk.
      * subst k. rewrite elem_of_app, list_elem_of_singleton. split.
        -- intros [[?| ->]|(i & -> & Hi & ? & ?)]; [by left | |].
           ++ right. exists j. solve_occ.
           ++ right. exists i. solve_occ.
        -- intros [?|(i & -> & [->|Hi]%elem_of_cons & ? & ?)].
           ++ by left; left.
           ++ by left; right.
           ++ right. by exists i.
      * split.
        -- intros [?|(i & -> & Hi & ? & ?)]; [by left|].
           right. exists i. solve_occ.
        -- intros [?|(i & -> & [->|Hi]%elem_of_cons & ? & ?)]; [by left | done |].
           right. by exists i.
    + split.
      * intros [?|(i & -> & Hi & ? & ?)]; [by left|].
        right. exists i. solve_occ.
      * intros [?|(i & -> & [->|Hi]%elem_of_cons & ? & ?)]; [by left | done |].
        right. by exists i.
Qed.

Lemma add_occurrences_keys self r0 pos idxs d k :
  k ∈ dict_keys (add_occurrences self r0 pos idxs d) →
  k ∈ dict_keys d ∨ min_pos self ≤ k ≤ max_pos self.
Proof.
  unfold add_occurrences. revert d.
  induction idxs as [|j idxs IH]; intros d; simpl; [by left|].
  intros [Hk|Hk]%IH; [|by right]. case_decide as Hw; [|by left].
  apply pos2read_append_keys in Hk as [?| ->]; [by left | by right].
Qed.

Lemma add_occurrences_nonempty self r0 pos idxs d :
  (∀ k, k ∈ dict_keys d → pool d k ≠ []) →
  ∀ k, k ∈ dict_keys (add_occurrences self r0 pos idxs d) →
       pool (add_occurrences self r0 pos idxs d) k ≠ [].
Proof.
  unfold add_occurrences. revert d.
  induction idxs as [|j idxs IH]; intros d Hd; simpl; [done|].
  apply IH. case_decide as Hw; [|done].
  intros k Hk. rewrite pool_append. case_decide as Hjk.
  - intros [? ?]%app_eq_nil. done.
  - apply pos2read_append_keys in Hk as [?| ->]; [by apply Hd | done].
Qed.

Lemma add_occurrences_NoDup self r0 pos idxs d :
  NoDup (dict_keys d) → NoDup (dict_keys (add_occurrences self r0 pos idxs d)).
Proof.
  unfold add_occurrences. revert d.
  induction idxs as [|j idxs IH]; intros d Hd; simpl; [done|].
  apply IH. case_decide; [|done]. by apply dict_set_NoDup.
Qed.

Lemma map_pos2read_from_pool self items d d' k r i :
  map_pos2read_from self items d = Ok d' →
  (r, i) ∈ pool d' k ↔ (r, i) ∈ pool d k ∨ contributes self items r i k.
Proof.
  revert d. induction items as [|[r0 [pos|]] items IH]; intros d; simpl.
  - intros [= <-]. split; [by left|]. intros [?|(pos & ma & H & _)]; [done|].
    by apply elem_of_nil in H.
  - case_decide as Hgt.
    + intros ->%IH. split.
      * intros [?|(p & ma & H & ?)]; [by left|]. right. exists p, ma.
        split; [by apply list_elem_of_further | done].
      * intros [?|(p & ma & [[= -> ->]|H]%elem_of_cons & Hle & ?)]; [by left | lia |].
        right. by exists p, ma.
    + unfold motif_getitem. destruct (motif_alignments self !! r0) as [ma0|] eqn:Hma0;
        simpl; [|done].
      intros ->%IH. rewrite add_occurrences_pool. split.
      * intros [[?|(j & [= -> ->] & Hj & Hw & ->)]|(p & ma & H & ?)].
        -- by left.
        -- right. exists pos, ma0. solve_occ.
        -- right. exists p, ma. split; [by apply list_elem_of_further | done].
      * intros [?|(p & ma & [[= -> ->]|H]%elem_of_cons & Hle & Hma & Hi & Hw & ->)].
        -- by left; left.
        -- left; right. exists i. rewrite Hma0 in Hma. injection Hma as ->. done.
        -- right. by exists p, ma.
  - intros ->%IH. split.
    + intros [?|(p & ma & H & ?)]; [by left|]. right. exists p, ma.
      split; [by apply list_elem_of_further | done].
    + intros [?|(p & ma & [[=]|H]%elem_of_cons & ?)]; [by left|].
      right. by exists p, ma.
Qed.

Lemma map_pos2read_from_keys self items d d' k :
  map_pos2read_from self items d = Ok d' →
  k ∈ dict_keys d' → k ∈ dict_keys d ∨ min_pos self ≤ k ≤ max_pos self.
Proof.
  revert d. induction items as [|[r0 [pos|]] items IH]; intros d; simpl.
  - intros [= <-]. by left.
  - case_decide as Hgt; [apply IH|].
    unfold motif_getitem. destruct (motif_alignments self !! r0) as [ma0|]; simpl; [|done].
    intros H Hk. destruct (IH _ H Hk) as [Hk'|?]; [|by right].
    by apply add_occurrences_keys in Hk'.
  - apply IH.
Qed.

Lemma map_pos2read_from_inv (P : list (Z * list (string * Z)) → Prop) self items d d' :
  (∀ r pos idxs d0, P d0 → P (add_occurrences self r pos idxs d0)) →
  map_pos2read_from self items d = Ok d' → P d → P d'.
Proof.
  intros HP. revert d. induction items as [|[r0 [pos|]] items IH]; intros d; simpl.
  - by intros [= <-].
  - case_decide as Hgt; [apply IH|].
    unfold motif_getitem. destruct (motif_alignments self !! r0) as [ma0|]; simpl; [|done].
    intros H Hd. eapply IH; [done|]. by apply HP.
  - apply IH.
Qed.

Lemma map_pos2read_NoDup self d : map_pos2read self = Ok d → NoDup (dict_keys d).
Proof.
  intros H. eapply (map_pos2read_from_inv (λ d, NoDup (dict_keys d))); [|done|].
  - intros. by apply add_occurrences_NoDup.
  - apply NoDup_nil_2.
Qed.

Lemma map_pos2read_nonempty self d k :
  map_pos2read self = Ok d → k ∈ dict_keys d → pool d k ≠ [].
Proof.
  intros H. revert k.
  eapply (map_pos2read_from_inv (λ d, ∀ k, k ∈ dict_keys d → pool d k ≠ [])); [|done|].
  - intros. by apply add_occurrences_nonempty.
  - intros k Hk. by apply elem_of_nil in Hk.
Qed.

Lemma map_pos2read_pool self d k r i :
  map_pos2read self = Ok d →
  (r, i) ∈ pool d k ↔ contributes self (read_placement self) r i k.
Proof.
  intros H. rewrite (map_pos2read_from_pool _ _ _ _ _ _ _ H).
  split; [|by right]. intros [Hin|?]; [|done]. by apply elem_of_nil in Hin.
Qed.

Lemma pool_elem_of d k occs : NoDup (dict_keys d) → (k, occs) ∈ d → pool d k = occs.
Proof. intros Hnd Hin. unfold pool. by rewrite (dict_get_NoDup _ _ _ Hnd Hin). Qed.

Lemma elem_of_range a b k : k ∈ range a b ↔ a ≤ k < b.
Proof. unfold range. rewrite elem_of_seqZ. lia. Qed.

Lemma elem_of_positions self pos n i :
  i ∈ positions self pos n ↔
  if decide (pos = min_pos self ∨ pos + n = max_pos self)
  then 0 ≤ i < n else 1 ≤ i < n - 1.
Proof. unfold positions. case_decide; by rewrite elem_of_range. Qed.

Ltac by_compute := apply (bool_decide_unpack _); vm_compute; exact I.

Lemma dict_lookup_unique {K V : Type} `{!EqDecision K} (d : list (K * V)) k v1 v2 :
  NoDup (dict_keys d) → (k, v1) ∈ d → (k, v2) ∈ d → v1 = v2.
Proof.
  intros Hnd H1 H2.
  apply (dict_get_NoDup _ _ _ Hnd) in H1. apply (dict_get_NoDup _ _ _ Hnd) in H2.
  congruence.
Qed.

(** C2 (as amended): for a placed read [r] at [pos] with alignment [ma] the
    resolver stores the local index [i] under [k] exactly when [k = pos + i]
    lies in the window and [i] is any index of the read if the read is
    anchored ([pos = min_pos] or [pos + len(ma) = max_pos]), an interior
    index [1 .. len(ma) - 2] otherwise; a read that is not anchored never
    contributes its first or its last occurrence. *)
Theorem map_pos2read_occurrences self d r pos ma :
  NoDup (dict_keys (read_placement self)) →
  map_pos2read self = Ok d →
  (r, Some pos) ∈ read_placement self →
  motif_alignments self !! r = Some ma →
  (∀ i k, (r, i) ∈ pool d k ↔
          k = pos + i ∧ min_pos self ≤ k ≤ max_pos self ∧
          if decide (pos = min_pos self ∨ pos + len ma = max_pos self)
          then 0 ≤ i < len ma else 1 ≤ i < len ma - 1) ∧
  (pos ≠ min_pos self → pos + len ma ≠ max_pos self →
   ∀ k, ((r, 0) ∉ pool d k) ∧ ((r, len ma - 1) ∉ pool d k)).
Proof.
  intros Hnd Hd Hr Hma.
  assert (Hchar : ∀ i k, (r, i) ∈ pool d k ↔
          k = pos + i ∧ min_pos self ≤ k ≤ max_pos self ∧
          if decide (pos = min_pos self ∨ pos + len ma = max_pos self)
          then 0 ≤ i < len ma else 1 ≤ i < len ma - 1).
  { intros i k. rewrite (map_pos2read_pool _ _ _ _ _ Hd). split.
    - intros (pos' & ma' & Hr' & Hle & Hma' & Hi & Hw & ->).
      assert (Some pos' = Some pos) as [= ->]
        by (by apply (dict_lookup_unique (read_placement self) r)).
      rewrite Hma in Hma'. injection Hma' as <-.
      apply elem_of_positions in Hi. done.
    - intros (-> & Hw & Hi). exists pos, ma.
      split_and!;
        first [ done | lia | by apply elem_of_positions | by case_decide; lia ]. }
  split; [done|].
  intros Hmin Hmax k. rewrite !Hchar.
  rewrite !(decide_False (P := pos = min_pos self ∨ pos + len ma = max_pos self))
    by (intros [?|?]; done).
  split; intros (_ & _ & ?); lia.
Qed.

Lemma map_pos2read_occurrences_witness :
  (∀ i k, ("r1", i) ∈ pool anchored_start_pool k ↔
          k = 0 + i ∧ min_pos anchored_start ≤ k ≤ max_pos anchored_start ∧
          if decide (0 = min_pos anchored_start ∨ 0 + len three_units = max_pos anchored_start)
          then 0 ≤ i < len three_units else 1 ≤ i < len three_units - 1) ∧
  (0 ≠ min_pos anchored_start → 0 + len three_units ≠ max_pos anchored_start →
   ∀ k, (("r1", 0) ∉ pool anchored_start_pool k) ∧
        (("r1", len three_units - 1) ∉ pool anchored_start_pool k)).
Proof.
  apply (map_pos2read_occurrences anchored_start anchored_start_pool "r1" 0 three_units).
  - by_compute.
  - vm_compute. reflexivity.
  - by_compute.
  - vm_compute. reflexivity.
Defined.

(** C2 (as stated) fails: the read starts at [min_pos = 0] and ends at 3,
    not at [max_pos = 10], yet its last occurrence, local index 2, is stored
    under position 2. *)
Lemma edge_rule_counterexample :
  ¬ (∀ d r pos ma i,
       map_pos2read anchored_start = Ok d →
       (r, Some pos) ∈ read_placement anchored_start →
       motif_alignments anchored_start !! r = Some ma →
       (r, i) ∈ pool d (pos + i) →
       1 ≤ i ≤ len ma - 2 ∨
       (i = 0 ∧ pos = min_pos anchored_start) ∨
       (i = len ma - 1 ∧ pos + len ma = max_pos anchored_start)).
Proof.
  intros H.
  destruct (H anchored_start_pool "r1" 0 three_units 2) as [Hi|[[Hi _]|[_ Hi]]].
  - vm_compute. reflexivity.
  - by_compute.
  - vm_compute. reflexivity.
  - by_compute.
  - vm_compute in Hi. destruct Hi as [_ Hi]. by apply Hi.
  - discriminate Hi.
  - vm_compute in Hi. discriminate Hi.
Qed.

Lemma add_occurrences_inverted self r pos idxs d :
  max_pos self < min_pos self → add_occurrences self r pos idxs d = d.
Proof.
  intros Hinv. unfold add_occurrences. revert d.
  induction idxs as [|j idxs IH]; intros d; simpl; [done|].
  rewrite decide_False by lia. apply IH.
Qed.

Lemma map_pos2read_from_outcome self items d :
  (∃ d', map_pos2read_from self items d = Ok d' ∧
         (max_pos self < min_pos self → d' = d)) ∨
  (∃ r pos, (r, Some pos) ∈ items ∧ pos ≤ max_pos self ∧
            motif_alignments self !! r = None ∧
            map_pos2read_from self items d = Raise (KeyError (KStr r))).
Proof.
  revert d. induction items as [|[r0 [pos|]] items IH]; intros d; simpl.
  - left. by exists d.
  - case_decide as Hgt.
    + destruct (IH d) as [?|(r & p & ? & ?)]; [by left|].
      right. exists r, p. split; [by apply list_elem_of_further | done].
    + unfold motif_getitem.
      destruct (motif_alignments self !! r0) as [ma0|] eqn:Hma0; simpl.
      * destruct (IH (add_occurrences self r0 pos (positions self pos (len ma0)) d))
          as [(d' & Hd' & Hinv)|(r & p & ? & ?)].
        -- left. exists d'. split; [done|]. intros H.
           rewrite (Hinv H). by apply add_occurrences_inverted.
        -- right. exists r, p. split; [by apply list_elem_of_further | done].
      * right. exists r0, pos. split_and!; [apply list_elem_of_here | lia | done | done].
  - destruct (IH d) as [?|(r & p & ? & ?)]; [by left|].
    right. exists r, p. split; [by apply list_elem_of_further | done].
Qed.

(** The loop of the resolver stops at the first item, in the order of the
    iteration, that is placed at or below [max_pos] and has no motif
    alignment, and nowhere else. *)
Lemma map_pos2read_from_first self items d :
  ((∀ r pos, (r, Some pos) ∈ items → pos ≤ max_pos self →
             is_Some (motif_alignments self !! r)) ∧
   ∃ d', map_pos2read_from self items d = Ok d' ∧
         (max_pos self < min_pos self → d' = d)) ∨
  (∃ before r pos after,
     items = before ++ (r, Some pos) :: after ∧
     (∀ r' pos', (r', Some pos') ∈ before → pos' ≤ max_pos self →
                 is_Some (motif_alignments self !! r')) ∧
     pos ≤ max_pos self ∧ motif_alignments self !! r = None ∧
     map_pos2read_from self items d = Raise (KeyError (KStr r))).
Proof.
  revert d. induction items as [|[r0 [pos|]] items IH]; intros d; simpl.
  - left. split; [|by exists d]. intros r pos Hin. by apply elem_of_nil in Hin.
  - case_decide as Hgt.
    + destruct (IH d) as [[Hall ?]|(before & r & p & after & -> & Hbefore & ?)].
      * left. split; [|done]. intros r p [[= -> ->]|Hin]%elem_of_cons Hle; [lia|].
        by apply (Hall r p).
      * right. exists ((r0, Some pos) :: before), r, p, after. split; [done|].
        split; [|done]. intros r' p' [[= -> ->]|Hin]%elem_of_cons Hle; [lia|].
        by apply (Hbefore r' p').
    + unfold motif_getitem.
      destruct (motif_alignments self !! r0) as [ma0|] eqn:Hma0; simpl.
      * destruct (IH (add_occurrences self r0 pos (positions self pos (len ma0)) d))
          as [[Hall (d' & Hd' & Hinv)]|(before & r & p & after & -> & Hbefore & ?)].
        -- left. split.
           ++ intros r p [[= -> ->]|Hin]%elem_of_cons Hle; [by rewrite Hma0|].
              by apply (Hall r p).
           ++ exists d'. split; [done|]. intros H.
              rewrite (Hinv H). by apply add_occurrences_inverted.
        -- right. exists ((r0, Some pos) :: before), r, p, after. split; [done|].
           split; [|done]. intros r' p' [[= -> ->]|Hin]%elem_of_cons Hle; [by rewrite Hma0|].
           by apply (Hbefore r' p').
      * right. exists [], r0, pos, items. split_and!; [done | | lia | done | done].
        intros r' p' Hin. by apply elem_of_nil in Hin.
  - destruct (IH d) as [[Hall ?]|(before & r & p & after & -> & Hbefore & ?)].
    + left. split; [|done]. intros r p [[=]|Hin]%elem_of_cons Hle. by apply (Hall r p).
    + right. exists ((r0, None) :: before), r, p, after. split; [done|].
      split; [|done]. intros r' p' [[=]|Hin]%elem_of_cons Hle. by apply (Hbefore r' p').
Qed.

(** C4 (as amended): the resolver checks no bounds and writes nothing.  It
    raises exactly when some read placed at or below [max_pos] has no motif
    alignment, and then it raises the [KeyError] of the first such read in
    the order of [read_placement], also when [max_pos < min_pos].  In every
    other case it returns the pool of the occurrences that the reads
    contribute, which is empty when [max_pos < min_pos]. *)
Theorem map_pos2read_outcome self :
  ((∀ r pos, (r, Some pos) ∈ read_placement self → pos ≤ max_pos self →
             is_Some (motif_alignments self !! r)) ∧
   ∃ d, map_pos2read self = Ok d ∧
        (∀ k r i, (r, i) ∈ pool d k ↔ contributes self (read_placement self) r i k) ∧
        (max_pos self < min_pos self → d = [])) ∨
  (∃ before r pos after,
     read_placement self = before ++ (r, Some pos) :: after ∧
     (∀ r' pos', (r', Some pos') ∈ before → pos' ≤ max_pos self →
                 is_Some (motif_alignments self !! r')) ∧
     pos ≤ max_pos self ∧ motif_alignments self !! r = None ∧
     map_pos2read self = Raise (KeyError (KStr r))).
Proof.
  destruct (map_pos2read_from_first self (read_placement self) [])
    as [[Hall (d & Hd & Hinv)]|H]; [left | by right].
  split; [done|]. exists d. split_and!; [done | | done].
  intros k r i. by apply map_pos2read_pool.
Qed.

(** C4 (as stated) fails: with [min_pos = 5] and [max_pos = 3] the resolver
    raises nothing and returns the empty pool. *)
Lemma inverted_window_counterexample :
  ¬ (max_pos inverted_window < min_pos inverted_window →
     ∃ e, map_pos2read inverted_window = Raise e).
Proof.
  intros H. destruct H as [e He]; [vm_compute; reflexivity|].
  vm_compute in He. discriminate He.
Qed.

(** C5: a read whose placement is unknown, and a read placed beyond
    [max_pos], occur in no list of the pool. *)
Theorem skipped_reads_excluded self d r :
  NoDup (dict_keys (read_placement self)) →
  map_pos2read self = Ok d →
  dict_get (read_placement self) r = Some None ∨
    (∃ pos, dict_get (read_placement self) r = Some (Some pos) ∧ pos > max_pos self) →
  ∀ k occs i, (k, occs) ∈ d → (r, i) ∉ occs.
Proof.
  intros Hnd Hd Hr k occs i Hk Hi.
  rewrite <- (pool_elem_of d k occs) in Hi by eauto using map_pos2read_NoDup.
  apply (map_pos2read_pool _ _ _ _ _ Hd) in Hi as (pos & ma & Hin & Hle & _).
  apply (dict_get_NoDup _ _ _ Hnd) in Hin.
  destruct Hr as [Hr|(pos' & Hr & Hgt)]; rewrite Hin in Hr; [done|].
  injection Hr as ->. lia.
Qed.

Lemma skipped_reads_excluded_witness :
  (∀ k occs i, (k, occs) ∈ mixed_pool → ("r0", i) ∉ occs) ∧
  (∀ k occs i, (k, occs) ∈ mixed_pool → ("r9", i) ∉ occs).
Proof.
  split.
  - apply (skipped_reads_excluded mixed mixed_pool "r0").
    + by_compute.
    + vm_compute. reflexivity.
    + left. vm_compute. reflexivity.
  - apply (skipped_reads_excluded mixed mixed_pool "r9").
    + by_compute.
    + vm_compute. reflexivity.
    + right. exists 50. split; [vm_compute; reflexivity | vm_compute; reflexivity].
Defined.

(** C10: every key of the pool lies in [[min_pos, max_pos]], and an entry
    [(r, i)] stored under [k] satisfies [k = placement(r) + i]. *)
Theorem pool_within_window self d :
  NoDup (dict_keys (read_placement self)) →
  map_pos2read self = Ok d →
  (∀ k, k ∈ dict_keys d → min_pos self ≤ k ≤ max_pos self) ∧
  (∀ k occs r i, (k, occs) ∈ d → (r, i) ∈ occs →
     ∃ pos, dict_get (read_placement self) r = Some (Some pos) ∧
            k = pos + i ∧ min_pos self ≤ k ≤ max_pos self).
Proof.
  intros Hnd Hd. split.
  - intros k Hk. destruct (map_pos2read_from_keys _ _ _ _ _ Hd Hk) as [Hnil|?]; [|done].
    by apply elem_of_nil in Hnil.
  - intros k occs r i Hk Hi.
    rewrite <- (pool_elem_of d k occs) in Hi by eauto using map_pos2read_NoDup.
    apply (map_pos2read_pool _ _ _ _ _ Hd) in Hi as (pos & ma & Hin & _ & _ & _ & Hw & ->).
    exists pos. split_and!; [by apply dict_get_NoDup | done | lia | lia].
Qed.

Lemma pool_within_window_witness :
  (∀ k, k ∈ dict_keys anchored_start_pool →
        min_pos anchored_start ≤ k ≤ max_pos anchored_start) ∧
  (∀ k occs r i, (k, occs) ∈ anchored_start_pool → (r, i) ∈ occs →
     ∃ pos, dict_get (read_placement anchored_start) r = Some (Some pos) ∧
            k = pos + i ∧ min_pos anchored_start ≤ k ≤ max_pos anchored_start).
Proof.
  apply (pool_within_window anchored_start anchored_start_pool).
  - by_compute.
  - vm_compute. reflexivity.
Defined.

(** ** The bounds *)

Lemma resolve_max_pos_spec mas items cur m :
  resolve_max_pos mas items cur = Ok m →
  cur ≤ m ∧
  (∀ r pos ma, (r, Some pos) ∈ items → mas !! r = Some ma → pos + len ma ≤ m) ∧
  (m = cur ∨ ∃ r pos ma, (r, Some pos) ∈ items ∧ mas !! r = Some ma ∧ m = pos + len ma) ∧
  resolve_max_pos mas (filter (λ x, is_Some x.2) items) cur = Ok m.
Proof.
  revert cur. induction items as [|[r0 [pos|]] items IH]; intros cur;
    cbn [resolve_max_pos].
  - intros [= <-]. split_and!; [lia | | by left | done].
    intros r pos ma H. by apply elem_of_nil in H.
  - rewrite filter_cons_True by (by eexists). cbn [resolve_max_pos].
    unfold motif_getitem. destruct (mas !! r0) as [ma0|] eqn:Hma0; simpl; [|done].
    intros (Hle & Hub & Hatt & Hfil)%IH. split_and!; [lia | | | done].
    + intros r p ma [[= -> ->]|Hin]%elem_of_cons Hma.
      * rewrite Hma0 in Hma. injection Hma as <-. lia.
      * by eapply Hub.
    + destruct Hatt as [->|(r & p & ma & Hin & Hma & ->)].
      * destruct (Z.max_spec cur (pos + len ma0)) as [[_ ->]|[_ ->]].
        -- right. exists r0, pos, ma0. split_and!; [apply list_elem_of_here | done..].
        -- by left.
      * right. exists r, p, ma. split_and!; [by apply list_elem_of_further | done..].
  - rewrite filter_cons_False by (by intros [? [=]]).
    intros (Hle & Hub & Hatt & Hfil)%IH. split_and!; [done | | | done].
    + intros r p ma [[=]|Hin]%elem_of_cons Hma. by eapply Hub.
    + destruct Hatt as [->|(r & p & ma & Hin & Hma & ->)]; [by left|].
      right. exists r, p, ma. split_and!; [by apply list_elem_of_further | done..].
Qed.

(** C3 (as amended): an explicit [max_pos] is kept; the default is resolved
    to the largest end [pos + len(ma)] of a placed read, and to 0 when no
    placed read ends above 0.  The reads without placement do not
    contribute: the loop gives the same value without them. *)
Theorem init_max_pos ps mas rp self :
  init ps mas rp = Ok self →
  match p_max_pos ps with
  | Int z => max_pos self = z
  | Inf =>
      0 ≤ max_pos self ∧
      (∀ r pos ma, (r, Some pos) ∈ rp → mas !! r = Some ma →
                   pos + len ma ≤ max_pos self) ∧
      (max_pos self = 0 ∨
       ∃ r pos ma, (r, Some pos) ∈ rp ∧ mas !! r = Some ma ∧
                   max_pos self = pos + len ma) ∧
      resolve_max_pos mas (filter (λ x, is_Some x.2) rp) 0 = Ok (max_pos self)
  end.
Proof.
  unfold init. destruct (p_max_pos ps) as [|z]; simpl.
  - destruct (resolve_max_pos mas rp 0) as [m|] eqn:Hm; simpl; [|done].
    intros [= <-]. simpl. by apply resolve_max_pos_spec.
  - by intros [= <-].
Qed.

Lemma init_max_pos_witness :
  0 ≤ max_pos (sample_polisher three_reads mixed_placement 0 53 2) ∧
  (∀ r pos ma, (r, Some pos) ∈ mixed_placement → three_reads !! r = Some ma →
               pos + len ma ≤ max_pos (sample_polisher three_reads mixed_placement 0 53 2)) ∧
  (max_pos (sample_polisher three_reads mixed_placement 0 53 2) = 0 ∨
   ∃ r pos ma, (r, Some pos) ∈ mixed_placement ∧ three_reads !! r = Some ma ∧
               max_pos (sample_polisher three_reads mixed_placement 0 53 2) = pos + len ma) ∧
  resolve_max_pos three_reads (filter (λ x, is_Some x.2) mixed_placement) 0 =
    Ok (max_pos (sample_polisher three_reads mixed_placement 0 53 2)).
Proof.
  apply (init_max_pos (sample_params 0 Inf 2) three_reads mixed_placement
           {| params := sample_params 0 Inf 2; motif_alignments := three_reads;
              read_placement := mixed_placement; max_pos := 53; min_pos := 0 |}).
  vm_compute. reflexivity.
Defined.

(** C3 (as stated) fails: the only placed read covers the positions -10 to
    -8 and ends at -7, and [max_pos] is resolved to 0, which that read does
    not reach. *)
Lemma max_pos_counterexample :
  ¬ (∀ self, init (sample_params 0 Inf 2) one_read negative_placement = Ok self →
       ∃ r pos ma, (r, Some pos) ∈ negative_placement ∧ one_read !! r = Some ma ∧
                   pos ≤ max_pos self ≤ pos + len ma).
Proof.
  intros H.
  destruct (H {| params := sample_params 0 Inf 2; motif_alignments := one_read;
                 read_placement := negative_placement; max_pos := 0; min_pos := 0 |})
    as (r & pos & ma & Hin & Hma & Hreach).
  - vm_compute. reflexivity.
  - apply list_elem_of_singleton in Hin. injection Hin as -> ->.
    vm_compute in Hma. injection Hma as <-. simpl in Hreach. vm_compute in Hreach.
    destruct Hreach as [_ Hreach]. by apply Hreach.
Qed.

(** ** The pool builder *)

Lemma median_high_elem_of data :
  data ≠ [] → ∃ m, median_high data = Ok m ∧ m ∈ data.
Proof.
  intros Hne. unfold median_high, sorted_nat.
  assert (Hlen : length (merge_sort Nat.le data) = length data)
    by (by rewrite merge_sort_Permutation).
  assert (Hpos : (0 < length data)%nat) by (destruct data; [done | simpl; lia]).
  destruct (lookup_lt_is_Some_2 (merge_sort Nat.le data)
              (length (merge_sort Nat.le data) / 2)%nat) as [m Hm].
  { rewrite Hlen. apply Nat.div_lt; lia. }
  exists m. rewrite Hm. split; [done|].
  apply list_elem_of_lookup_2 in Hm. by rewrite merge_sort_Permutation in Hm.
Qed.

Lemma collect_seqs_inv (P : list (string * string) → Prop) self pos occs seqs seqs' :
  (∀ d k v, P d → P (dict_set d k v)) →
  collect_seqs self pos occs seqs = Ok seqs' → P seqs → P seqs'.
Proof.
  intros HP. revert seqs. induction occs as [|[r p] occs IH]; intros seqs; simpl.
  - by intros [= <-].
  - destruct (motif_getitem (motif_alignments self) r) as [ma|]; simpl; [|done].
    destruct (list_getitem ma p) as [rec|]; simpl; [|done].
    intros H Hs. eapply IH; [done|]. by apply HP.
Qed.

Lemma collect_seqs_NoDup self pos occs seqs :
  collect_seqs self pos occs [] = Ok seqs → NoDup (dict_keys seqs).
Proof.
  intros H. eapply (collect_seqs_inv (λ d, NoDup (dict_keys d))); [|done|].
  - intros. by apply dict_set_NoDup.
  - apply NoDup_nil_2.
Qed.

Lemma dict_set_nonempty {K V : Type} `{!EqDecision K} (d : list (K * V)) k v :
  dict_set d k v ≠ [].
Proof. destruct d as [|[k' v'] d]; simpl; [done|]. by case_decide. Qed.

Lemma collect_seqs_nonempty self pos occs seqs :
  occs ≠ [] → collect_seqs self pos occs [] = Ok seqs → seqs ≠ [].
Proof.
  destruct occs as [|[r p] occs]; [done|]. intros _. simpl.
  destruct (motif_getitem (motif_alignments self) r) as [ma|]; simpl; [|done].
  destruct (list_getitem ma p) as [rec|]; simpl; [|done].
  intros H. eapply (collect_seqs_inv (λ d, d ≠ [])); [|done|].
  - intros. apply dict_set_nonempty.
  - done.
Qed.

(** The scan stops at the first name of the median length, if there is one. *)
Lemma scan_median_first seqs med names :
  (∃ k u, k ∈ names ∧ dict_get seqs k = Some u ∧ String.length u = med) →
  (∀ k, k ∈ names → is_Some (dict_get seqs k)) →
  ∃ before t after u,
    names = before ++ t :: after ∧
    dict_get seqs t = Some u ∧ String.length u = med ∧
    (∀ t' u', t' ∈ before → dict_get seqs t' = Some u' → String.length u' ≠ med) ∧
    scan_median seqs med names = Ok (u, Some t).
Proof.
  induction names as [|n names IH].
  - intros (k & u & Hk & _). by apply elem_of_nil in Hk.
  - intros (k & u & Hk & Hget & Hlen) Hall. simpl. unfold dict_getitem.
    destruct (Hall n) as [un Hun]; [apply list_elem_of_here|]. rewrite Hun. simpl.
    case_decide as Hn.
    + exists [], n, names, un. split_and!; try done.
      intros t' u' Ht'. by apply elem_of_nil in Ht'.
    + destruct IH as (before & t & after & ut & -> & Ht & Hlt & Hbefore & Hscan).
      * apply elem_of_cons in Hk as [->|Hk]; [congruence|]. by exists k, u.
      * intros k' Hk'. apply Hall. by apply list_elem_of_further.
      * exists (n :: before), t, after, ut. split_and!; try done.
        intros t' u' [->|Ht']%elem_of_cons Hget'; [congruence|]. by eapply Hbefore.
Qed.

(** Lines 82-92 on the candidates of a non-empty pool. *)
Lemma select_median_first seqs :
  seqs ≠ [] → NoDup (dict_keys seqs) →
  ∃ med_len before t after u,
    median_high (String.length <$> dict_values seqs) = Ok med_len ∧
    sorted_str (dict_keys seqs) = before ++ t :: after ∧
    dict_get seqs t = Some u ∧ String.length u = med_len ∧
    (∀ t' u', t' ∈ before → dict_get seqs t' = Some u' → String.length u' ≠ med_len) ∧
    scan_median seqs med_len (sorted_str (dict_keys seqs)) = Ok (u, Some t) ∧
    select_median seqs = Ok (t, u).
Proof.
  intros Hne Hnd.
  destruct (median_high_elem_of (String.length <$> dict_values seqs))
    as (med & Hmed & Hin).
  { destruct seqs; [done|]. done. }
  apply list_elem_of_fmap in Hin as (u0 & Hlen0 & Hu0).
  apply list_elem_of_fmap in Hu0 as ([k0 u0'] & -> & Hk0). simpl in Hlen0.
  destruct (scan_median_first seqs med (sorted_str (dict_keys seqs)))
    as (before & t & after & u & Hsplit & Ht & Hlen & Hbefore & Hscan).
  - exists k0, u0'. split_and!; [|by apply dict_get_NoDup|done].
    unfold sorted_str. rewrite merge_sort_Permutation.
    apply list_elem_of_fmap. by exists (k0, u0').
  - intros k Hk. unfold sorted_str in Hk. rewrite merge_sort_Permutation in Hk.
    destruct (dict_get seqs k) eqn:Hget; [by eexists|].
    by apply dict_get_None in Hget.
  - exists med, before, t, after, u. split_and!; try done.
    unfold select_median. rewrite Hmed. simpl. rewrite Hscan. simpl.
    unfold dict_getitem. rewrite Ht. simpl. by rewrite !decide_True.
Qed.

Lemma dict_set_elem_of {K V : Type} `{!EqDecision K} (d : list (K * V)) k v k' v' :
  (k', v') ∈ dict_set d k v → (k', v') ∈ d ∨ (k', v') = (k, v).
Proof.
  induction d as [|[k0 v0] d IH]; simpl.
  - intros ->%list_elem_of_singleton. by right.
  - case_decide as Hk0.
    + intros [->|H]%elem_of_cons; [by right|]. left. by apply list_elem_of_further.
    + intros [->|H]%elem_of_cons; [left; apply list_elem_of_here|].
      destruct (IH H) as [?|?]; [left; by apply list_elem_of_further | by right].
Qed.

(** Every candidate is the cleaned sequence of an occurrence of the pool,
    under the name of that occurrence. *)
Lemma collect_seqs_entries self pos occs seqs0 seqs k u :
  collect_seqs self pos occs seqs0 = Ok seqs → (k, u) ∈ seqs →
  (k, u) ∈ seqs0 ∨
  ∃ r p ma rec, (r, p) ∈ occs ∧ motif_alignments self !! r = Some ma ∧
                list_getitem ma p = Ok rec ∧
                k = seq_name pos r p ∧ u = clean (r_al rec).
Proof.
  revert seqs0. induction occs as [|[r p] occs IH]; intros seqs0; simpl.
  - intros [= <-]. by left.
  - unfold motif_getitem. destruct (motif_alignments self !! r) as [ma|] eqn:Hma;
      simpl; [|done].
    destruct (list_getitem ma p) as [rec|] eqn:Hrec; simpl; [|done].
    intros H Hin. destruct (IH _ H Hin) as [Hin'|(r' & p' & ma' & rec' & ? & ?)].
    + apply dict_set_elem_of in Hin' as [?|[= -> ->]]; [by left|].
      right. exists r, p, ma, rec. split_and!; [apply list_elem_of_here | done..].
    + right. exists r', p', ma', rec'. split; [by apply list_elem_of_further | done].
Qed.

Lemma collect_seqs_Ok self pos occs seqs0 :
  (∀ r p, (r, p) ∈ occs →
          ∃ ma, motif_alignments self !! r = Some ma ∧ 0 ≤ p < len ma) →
  ∃ seqs, collect_seqs self pos occs seqs0 = Ok seqs.
Proof.
  revert seqs0. induction occs as [|[r p] occs IH]; intros seqs0 Hall; simpl.
  - by eexists.
  - destruct (Hall r p) as (ma & Hma & Hp); [apply list_elem_of_here|].
    unfold motif_getitem. rewrite Hma. simpl.
    unfold list_getitem. rewrite (decide_False (P := p < 0)) by lia.
    rewrite (decide_True (P := 0 ≤ p)) by lia.
    destruct (lookup_lt_is_Some_2 ma (Z.to_nat p)) as [rec ->].
    { unfold len in Hp. lia. }
    simpl. apply IH. intros r' p' H. apply Hall. by apply list_elem_of_further.
Qed.

Lemma export_pos_Ok self pos occs seqs t u :
  collect_seqs self pos occs [] = Ok seqs → select_median seqs = Ok (t, u) →
  export_pos self pos occs =
    ([Makedirs (pos_outdir self pos);
      WriteBioSeqs (units_fn_of (pos_outdir self pos)) seqs;
      WriteBioSeqs (median_read_unit_fn_of (pos_outdir self pos)) [(t, u)]],
     Ok (units_fn_of (pos_outdir self pos),
         median_read_unit_fn_of (pos_outdir self pos))).
Proof.
  intros Hseqs Hsel. unfold export_pos, io_bind, emit, lift, io_ret.
  rewrite Hseqs, Hsel. reflexivity.
Qed.

(** C1: for a non-empty pool whose occurrences exist, [export_read_units]
    writes exactly one median read unit: the candidate of the first name, in
    the order of the sorted names, whose cleaned sequence has the high median
    of the candidates' lengths; it is the cleaned sequence of an occurrence
    of the pool.  In the pool of position 7 made of r1 = AACGT, r2 = ACGTT
    and r3 = ACCGT it is the sequence of r1, in whichever order the reads
    were pooled. *)
Theorem median_unit_is_first_of_median_length :
  (∀ self pos occs seqs,
     occs ≠ [] → collect_seqs self pos occs [] = Ok seqs →
     ∃ med_len before t after u,
       median_high (String.length <$> dict_values seqs) = Ok med_len ∧
       sorted_str (dict_keys seqs) = before ++ t :: after ∧
       dict_get seqs t = Some u ∧ String.length u = med_len ∧
       (∀ t' u', t' ∈ before → dict_get seqs t' = Some u' →
                 String.length u' ≠ med_len) ∧
       (∃ r p ma rec, (r, p) ∈ occs ∧ motif_alignments self !! r = Some ma ∧
                      list_getitem ma p = Ok rec ∧
                      t = seq_name pos r p ∧ u = clean (r_al rec)) ∧
       export_pos self pos occs =
         ([Makedirs (pos_outdir self pos);
           WriteBioSeqs (units_fn_of (pos_outdir self pos)) seqs;
           WriteBioSeqs (median_read_unit_fn_of (pos_outdir self pos)) [(t, u)]],
          Ok (units_fn_of (pos_outdir self pos),
              median_read_unit_fn_of (pos_outdir self pos)))) ∧
  collect_seqs equal_lengths_polisher 7 pool_at_7 [] = Ok seqs_at_7 ∧
  select_median seqs_at_7 = Ok ("gen_pos=7|r_id=r1|r_pos=0", "AACGT") ∧
  collect_seqs equal_lengths_polisher 7 (reverse pool_at_7) [] = Ok (reverse seqs_at_7) ∧
  select_median (reverse seqs_at_7) = Ok ("gen_pos=7|r_id=r1|r_pos=0", "AACGT").
Proof.
  split; [|by vm_compute].
  intros self pos occs seqs Hne Hseqs.
  destruct (select_median_first seqs)
    as (med & before & t & after & u & Hmed & Hsplit & Ht & Hlen & Hbefore & _ & Hsel).
  { by eapply collect_seqs_nonempty. }
  { by eapply collect_seqs_NoDup. }
  exists med, before, t, after, u. split_and!; try done.
  - apply dict_get_Some in Ht.
    destruct (collect_seqs_entries _ _ _ _ _ _ _ Hseqs Ht) as [Hnil|?]; [|done].
    by apply elem_of_nil in Hnil.
  - by apply export_pos_Ok.
Qed.

Lemma median_unit_is_first_of_median_length_witness :
  ∃ med_len before t after u,
    median_high (String.length <$> dict_values seqs_at_7) = Ok med_len ∧
    sorted_str (dict_keys seqs_at_7) = before ++ t :: after ∧
    dict_get seqs_at_7 t = Some u ∧ String.length u = med_len ∧
    (∀ t' u', t' ∈ before → dict_get seqs_at_7 t' = Some u' →
              String.length u' ≠ med_len) ∧
    (∃ r p ma rec, (r, p) ∈ pool_at_7 ∧
                   motif_alignments equal_lengths_polisher !! r = Some ma ∧
                   list_getitem ma p = Ok rec ∧
                   t = seq_name 7 r p ∧ u = clean (r_al rec)) ∧
    export_pos equal_lengths_polisher 7 pool_at_7 =
      ([Makedirs (pos_outdir equal_lengths_polisher 7);
        WriteBioSeqs (units_fn_of (pos_outdir equal_lengths_polisher 7)) seqs_at_7;
        WriteBioSeqs (median_read_unit_fn_of (pos_outdir equal_lengths_polisher 7)) [(t, u)]],
       Ok (units_fn_of (pos_outdir equal_lengths_polisher 7),
           median_read_unit_fn_of (pos_outdir equal_lengths_polisher 7))).
Proof.
  apply (proj1 median_unit_is_first_of_median_length equal_lengths_polisher 7 pool_at_7).
  - discriminate.
  - vm_compute. reflexivity.
Defined.

Lemma export_pos_total self pos occs :
  occs ≠ [] →
  (∀ r p, (r, p) ∈ occs →
          ∃ ma, motif_alignments self !! r = Some ma ∧ 0 ≤ p < len ma) →
  ∃ tr, export_pos self pos occs =
        (tr, Ok (units_fn_of (pos_outdir self pos),
                 median_read_unit_fn_of (pos_outdir self pos))).
Proof.
  intros Hne Hall. destruct (collect_seqs_Ok self pos occs [] Hall) as [seqs Hseqs].
  destruct (select_median_first seqs)
    as (med & before & t & after & u & _ & _ & _ & _ & _ & _ & Hsel).
  { by eapply collect_seqs_nonempty. }
  { by eapply collect_seqs_NoDup. }
  eexists. by apply export_pos_Ok.
Qed.

Lemma export_read_units_over_total self d keys fns0 :
  (∀ k, k ∈ keys → pool d k ≠ [] ∧
     ∀ r p, (r, p) ∈ pool d k →
            ∃ ma, motif_alignments self !! r = Some ma ∧ 0 ≤ p < len ma) →
  ∃ tr fns,
    export_read_units_over self d keys fns0 = (tr, Ok fns) ∧
    (NoDup (dict_keys fns0) → NoDup (dict_keys fns)) ∧
    ∀ k, dict_get fns k =
         if decide (k ∈ keys)
         then Some (units_fn_of (pos_outdir self k),
                    median_read_unit_fn_of (pos_outdir self k))
         else dict_get fns0 k.
Proof.
  revert fns0. induction keys as [|k0 keys IH]; intros fns0 Hall;
    cbn [export_read_units_over].
  - exists [], fns0. split_and!; [done | done |].
    intros k. rewrite decide_False; [done | apply not_elem_of_nil].
  - destruct (Hall k0) as [Hne Hocc]; [apply list_elem_of_here|].
    destruct (export_pos_total self k0 (pool d k0) Hne Hocc) as [tr0 ->].
    destruct (IH (dict_set fns0 k0 (units_fn_of (pos_outdir self k0),
                                   median_read_unit_fn_of (pos_outdir self k0))))
      as (tr & fns & Heq & Hnd & Hget).
    { intros k Hk. apply Hall. by apply list_elem_of_further. }
    unfold io_bind. rewrite Heq. exists (tr0 ++ tr), fns. split_and!; [done | |].
    + intros H0. apply Hnd. by apply dict_set_NoDup.
    + intros k. rewrite Hget. destruct (decide (k ∈ keys)) as [Hin|Hnin].
      * rewrite decide_True; [done | by apply list_elem_of_further].
      * destruct (decide (k = k0)) as [->|Hk].
        -- rewrite dict_get_set_eq. rewrite decide_True; [done | apply list_elem_of_here].
        -- rewrite dict_get_set_ne by done. rewrite decide_False; [done|].
           intros [?|?]%elem_of_cons; done.
Qed.

Lemma map_pos2read_occurrences_exist self d k r p :
  map_pos2read self = Ok d → (r, p) ∈ pool d k →
  ∃ ma, motif_alignments self !! r = Some ma ∧ 0 ≤ p < len ma.
Proof.
  intros Hd Hin.
  apply (map_pos2read_pool _ _ _ _ _ Hd) in Hin as (pos & ma & _ & _ & Hma & Hi & _).
  exists ma. split; [done|]. apply elem_of_positions in Hi. case_decide; lia.
Qed.

(** The filenames returned for the pool of the resolver: one entry for each
    pooled position. *)
Lemma export_read_units_total self d :
  map_pos2read self = Ok d →
  ∃ tr fns,
    export_read_units self d = (tr, Ok fns) ∧ NoDup (dict_keys fns) ∧
    ∀ k, dict_get fns k =
         if decide (k ∈ dict_keys d)
         then Some (units_fn_of (pos_outdir self k),
                    median_read_unit_fn_of (pos_outdir self k))
         else None.
Proof.
  intros Hd.
  destruct (export_read_units_over_total self d (dict_keys d) [])
    as (tr & fns & Heq & Hnd & Hget).
  { intros k Hk. split; [by apply (map_pos2read_nonempty self)|].
    intros r p. by apply map_pos2read_occurrences_exist. }
  exists tr, fns. split_and!; [done | apply Hnd, NoDup_nil_2 | done].
Qed.

(** C9: on a non-empty pool whose occurrences exist, the median length is
    the length of a candidate and the scan ends on a candidate of that
    length, so that neither assertion fails; and the pools built by the
    resolver are non-empty and [export_read_units] raises nothing on them. *)
Theorem median_scan_never_fails :
  (∀ self pos occs seqs,
     occs ≠ [] → collect_seqs self pos occs [] = Ok seqs →
     ∃ med_len t u,
       median_high (String.length <$> dict_values seqs) = Ok med_len ∧
       med_len ∈ String.length <$> dict_values seqs ∧
       scan_median seqs med_len (sorted_str (dict_keys seqs)) = Ok (u, Some t) ∧
       select_median seqs = Ok (t, u)) ∧
  (∀ self d,
     map_pos2read self = Ok d →
     (∀ k, k ∈ dict_keys d → pool d k ≠ []) ∧
     ∃ tr fns, export_read_units self d = (tr, Ok fns)).
Proof.
  split.
  - intros self pos occs seqs Hne Hseqs.
    assert (Hseqs_ne : seqs ≠ [])
      by apply (collect_seqs_nonempty self pos occs seqs Hne Hseqs).
    destruct (select_median_first seqs Hseqs_ne)
      as (med & before & t & after & u & Hmed & _ & _ & _ & _ & Hscan & Hsel).
    { by eapply collect_seqs_NoDup. }
    exists med, t, u. split_and!; try done.
    destruct (median_high_elem_of (String.length <$> dict_values seqs))
      as (m & Hm & Hin).
    { destruct seqs; done. }
    rewrite Hmed in Hm. by injection Hm as ->.
  - intros self d Hd. split.
    + intros k. by apply (map_pos2read_nonempty self).
    + destruct (export_read_units_total self d Hd) as (tr & fns & Heq & _).
      by exists tr, fns.
Qed.

Lemma median_scan_never_fails_witness :
  (∃ med_len t u,
     median_high (String.length <$> dict_values seqs_at_7) = Ok med_len ∧
     med_len ∈ String.length <$> dict_values seqs_at_7 ∧
     scan_median seqs_at_7 med_len (sorted_str (dict_keys seqs_at_7)) = Ok (u, Some t) ∧
     select_median seqs_at_7 = Ok (t, u)) ∧
  ((∀ k, k ∈ dict_keys anchored_start_pool → pool anchored_start_pool k ≠ []) ∧
   ∃ tr fns, export_read_units anchored_start anchored_start_pool = (tr, Ok fns)).
Proof.
  split.
  - apply (proj1 median_scan_never_fails equal_lengths_polisher 7 pool_at_7).
    + discriminate.
    + vm_compute. reflexivity.
  - apply (proj2 median_scan_never_fails anchored_start anchored_start_pool).
    vm_compute. reflexivity.
Defined.

(** ** The assembler *)

Lemma foldl_min_spec a l :
  foldl Z.min a l ∈ a :: l ∧ ∀ x, x ∈ a :: l → foldl Z.min a l ≤ x.
Proof.
  revert a. induction l as [|b l IH]; intros a; simpl.
  - split; [apply list_elem_of_here|]. intros x ->%list_elem_of_singleton. lia.
  - destruct (IH (Z.min a b)) as [Hin Hle]. split.
    + apply elem_of_cons in Hin as [->|Hin].
      * destruct (Z.min_spec a b) as [[_ ->]|[_ ->]];
          [apply list_elem_of_here | apply list_elem_of_further, list_elem_of_here].
      * by do 2 apply list_elem_of_further.
    + pose proof (Hle (Z.min a b) (list_elem_of_here _ _)) as Hab.
      intros x [Hx|[Hx|Hx]%elem_of_cons]%elem_of_cons; [lia | lia |].
      apply Hle. by apply list_elem_of_further.
Qed.

Lemma foldl_max_spec a l :
  foldl Z.max a l ∈ a :: l ∧ ∀ x, x ∈ a :: l → x ≤ foldl Z.max a l.
Proof.
  revert a. induction l as [|b l IH]; intros a; simpl.
  - split; [apply list_elem_of_here|]. intros x ->%list_elem_of_singleton. lia.
  - destruct (IH (Z.max a b)) as [Hin Hle]. split.
    + apply elem_of_cons in Hin as [->|Hin].
      * destruct (Z.max_spec a b) as [[_ ->]|[_ ->]];
          [apply list_elem_of_further, list_elem_of_here | apply list_elem_of_here].
      * by do 2 apply list_elem_of_further.
    + pose proof (Hle (Z.max a b) (list_elem_of_here _ _)) as Hab.
      intros x [Hx|[Hx|Hx]%elem_of_cons]%elem_of_cons; [lia | lia |].
      apply Hle. by apply list_elem_of_further.
Qed.

Lemma min_of_spec l m : min_of l = Ok m → m ∈ l ∧ ∀ x, x ∈ l → m ≤ x.
Proof. destruct l as [|a l]; simpl; [done|]. intros [= <-]. apply foldl_min_spec. Qed.

Lemma max_of_spec l m : max_of l = Ok m → m ∈ l ∧ ∀ x, x ∈ l → x ≤ m.
Proof. destruct l as [|a l]; simpl; [done|]. intros [= <-]. apply foldl_max_spec. Qed.

Section assembler_facts.
Variable read_bio_seq : string → result string.

Lemma read_polished_spec i items ps0 ps :
  NoDup (dict_keys items) →
  read_polished read_bio_seq i items ps0 = Ok ps →
  ∀ pos,
    match dict_get items pos with
    | Some (u, _) =>
        ∃ s, read_bio_seq (polished_seq_fn u i) = Ok s ∧ dict_get ps pos = Some s
    | None => dict_get ps pos = dict_get ps0 pos
    end.
Proof.
  revert ps0. induction items as [|[p0 [u0 m0]] items IH]; intros ps0; simpl.
  - by intros _ [= <-] pos.
  - intros [Hp0 Hnd]%NoDup_cons.
    destruct (read_bio_seq (polished_seq_fn u0 i)) as [s0|] eqn:Hs0; simpl; [|done].
    intros H pos. specialize (IH _ Hnd H pos).
    destruct (decide (p0 = pos)) as [->|Hne].
    + apply dict_get_None in Hp0. rewrite Hp0 in IH.
      exists s0. split; [done|]. by rewrite IH, dict_get_set_eq.
    + destruct (dict_get items pos) as [[u m]|]; [done|].
      by rewrite IH, dict_get_set_ne.
Qed.

Lemma read_polished_Raise i items ps0 e :
  read_polished read_bio_seq i items ps0 = Raise e →
  ∃ p u m, (p, (u, m)) ∈ items ∧ read_bio_seq (polished_seq_fn u i) = Raise e.
Proof.
  revert ps0. induction items as [|[p0 [u0 m0]] items IH]; intros ps0; simpl; [done|].
  destruct (read_bio_seq (polished_seq_fn u0 i)) as [s0|] eqn:Hs0; simpl.
  - intros (p & u & m & Hin & Hr)%IH. exists p, u, m.
    split; [by apply list_elem_of_further | done].
  - intros [= <-]. exists p0, u0, m0. split; [apply list_elem_of_here | done].
Qed.

Lemma gather_Ok ps poss parts :
  gather ps poss = Ok parts → Forall2 (λ pos s, dict_get ps pos = Some s) poss parts.
Proof.
  revert parts. induction poss as [|pos poss IH]; intros parts; simpl.
  - intros [= <-]. constructor.
  - unfold dict_getitem. destruct (dict_get ps pos) as [s|] eqn:Hs; simpl; [|done].
    destruct (gather ps poss) as [ss|]; simpl; [|done].
    intros [= <-]. constructor; [done | by apply IH].
Qed.

Lemma gather_Raise ps poss e :
  gather ps poss = Raise e →
  ∃ p, p ∈ poss ∧ dict_get ps p = None ∧ e = KeyError (KInt p).
Proof.
  induction poss as [|pos poss IH]; simpl; [done|].
  unfold dict_getitem. destruct (dict_get ps pos) as [s|] eqn:Hs; simpl.
  - destruct (gather ps poss) as [ss|]; simpl; [done|].
    intros [= <-]. destruct IH as (p & Hp & ?); [done|].
    exists p. split; [by apply list_elem_of_further | done].
  - intros [= <-]. exists pos. split; [apply list_elem_of_here | done].
Qed.

Lemma read_polishing_over_spec fns lo hi iters ps0 f0 finals :
  NoDup (dict_keys fns) → NoDup iters →
  (∀ pos, dict_get fns pos = None → dict_get ps0 pos = None) →
  read_polishing_over read_bio_seq fns lo hi iters ps0 f0 = Ok finals →
  ∀ i,
    (i ∈ iters →
     ∃ parts, Forall2 (artifact read_bio_seq fns i) (range lo (hi + 1)) parts ∧
              dict_get finals i = Some (String.concat EmptyString parts)) ∧
    (i ∉ iters → dict_get finals i = dict_get f0 i).
Proof.
  intros Hfns. revert ps0 f0.
  induction iters as [|i0 iters IH]; intros ps0 f0 Hnd Hps0; simpl.
  - intros [= <-] i. split; [|done]. intros Hi. by apply elem_of_nil in Hi.
  - apply NoDup_cons in Hnd as [Hi0 Hnd].
    destruct (read_polished read_bio_seq i0 fns ps0) as [ps|] eqn:Hps; simpl; [|done].
    destruct (gather ps (range lo (hi + 1))) as [parts|] eqn:Hparts; simpl; [|done].
    pose proof (read_polished_spec _ _ _ _ Hfns Hps) as Hspec.
    intros H i.
    assert (Hps' : ∀ pos, dict_get fns pos = None → dict_get ps pos = None).
    { intros pos Hpos. specialize (Hspec pos). rewrite Hpos in Hspec.
      rewrite Hspec. by apply Hps0. }
    destruct (IH _ _ Hnd Hps' H i) as [Hin Hnin]. split.
    + intros [->|Hi]%elem_of_cons; [|by apply Hin].
      exists parts. split.
      * apply gather_Ok in Hparts. eapply Forall2_impl; [apply Hparts|].
        intros pos s Hs. simpl in Hs. specialize (Hspec pos).
        destruct (dict_get fns pos) as [[u m]|] eqn:Hpos.
        -- destruct Hspec as (s' & Hread & Hs'). exists u, m.
           split; [done|]. congruence.
        -- rewrite (Hps' pos Hpos) in Hs. done.
      * rewrite (Hnin Hi0). apply dict_get_set_eq.
    + intros [Hne Hi]%not_elem_of_cons. rewrite (Hnin Hi).
      by apply dict_get_set_ne.
Qed.

Lemma read_polishing_over_Raise fns lo hi iters ps0 f0 e :
  NoDup (dict_keys fns) →
  (∀ pos, dict_get fns pos = None → dict_get ps0 pos = None) →
  read_polishing_over read_bio_seq fns lo hi iters ps0 f0 = Raise e →
  (∃ p, p ∈ range lo (hi + 1) ∧ dict_get fns p = None ∧ e = KeyError (KInt p)) ∨
  (∃ p u m j, j ∈ iters ∧ dict_get fns p = Some (u, m) ∧
              read_bio_seq (polished_seq_fn u j) = Raise e).
Proof.
  intros Hfns. revert ps0 f0.
  induction iters as [|i0 iters IH]; intros ps0 f0 Hps0; simpl; [done|].
  destruct (read_polished read_bio_seq i0 fns ps0) as [ps|] eqn:Hps; simpl.
  - pose proof (read_polished_spec _ _ _ _ Hfns Hps) as Hspec.
    assert (Hps' : ∀ pos, dict_get fns pos = None → dict_get ps pos = None).
    { intros pos Hpos. specialize (Hspec pos). rewrite Hpos in Hspec.
      rewrite Hspec. by apply Hps0. }
    destruct (gather ps (range lo (hi + 1))) as [parts|] eqn:Hparts; simpl.
    + intros [?|(p & u & m & j & Hj & ?)]%IH; [by left | | done].
      right. exists p, u, m, j. split; [by apply list_elem_of_further | done].
    + intros [= <-]. apply gather_Raise in Hparts as (p & Hp & Hnone & ->).
      left. exists p. split_and!; [done | | done].
      specialize (Hspec p). destruct (dict_get fns p) as [[u m]|]; [|done].
      destruct Hspec as (s & _ & Hs). congruence.
  - intros [= <-]. apply read_polished_Raise in Hps as (p & u & m & Hin & Hr).
    right. exists p, u, m, i0.
    split_and!; [apply list_elem_of_here | by apply dict_get_NoDup | done].
Qed.

End assembler_facts.

Lemma export_results_over_Ok self finals iters :
  (∀ i, i ∈ iters → is_Some (dict_get finals i)) →
  export_results_over self finals iters =
    (iters ≫= (λ i,
       [WriteBioSeqs (final_fn self i)
          [(polished_repeat i, default EmptyString (dict_get finals i))];
        WriteBioSeqs (final_hpc_fn self i)
          [(polished_repeat i,
            compress_homopolymer (default EmptyString (dict_get finals i)))]]),
     Ok tt).
Proof.
  induction iters as [|i0 iters IH]; intros Hall; [done|].
  cbn [export_results_over]. rewrite IH
    by (intros i Hi; apply Hall; by apply list_elem_of_further).
  destruct (Hall i0) as [s Hs]; [apply list_elem_of_here|].
  unfold export_iteration, io_bind, lift, emit, dict_getitem.
  rewrite bind_cons, Hs. reflexivity.
Qed.

(** C6 (as amended): when the assembler returns, the sequence of every
    iteration [i] in [1 .. num_iters] is the concatenation, in ascending
    order, of the [i]-th polished sequences of all the positions from [lo] to
    [hi], the smallest and the largest position that has read units; when
    the read units are those of the resolver's pool, [lo] and [hi] lie in
    [[min_pos, max_pos]], whose ends they need not reach.  [export_results]
    writes that sequence, and its compressed form, for every iteration. *)
Theorem full_locus_is_concatenation read_bio_seq self fns finals :
  NoDup (dict_keys fns) →
  read_polishing read_bio_seq self fns = Ok finals →
  ∃ lo hi,
    min_of (dict_keys fns) = Ok lo ∧ max_of (dict_keys fns) = Ok hi ∧
    lo ∈ dict_keys fns ∧ hi ∈ dict_keys fns ∧
    (∀ k, k ∈ dict_keys fns → lo ≤ k ≤ hi) ∧
    (∀ d tr, map_pos2read self = Ok d → export_read_units self d = (tr, Ok fns) →
             min_pos self ≤ lo ∧ hi ≤ max_pos self) ∧
    (∀ i, 1 ≤ i ≤ p_num_iters (params self) →
       ∃ parts,
         Forall2 (artifact read_bio_seq fns i) (range lo (hi + 1)) parts ∧
         dict_get finals i = Some (String.concat EmptyString parts)) ∧
    export_results self finals =
      (range 1 (p_num_iters (params self) + 1) ≫= (λ i,
         [WriteBioSeqs (final_fn self i)
            [(polished_repeat i, default EmptyString (dict_get finals i))];
          WriteBioSeqs (final_hpc_fn self i)
            [(polished_repeat i,
              compress_homopolymer (default EmptyString (dict_get finals i)))]]),
       Ok tt).
Proof.
  intros Hnd. unfold read_polishing.
  destruct (min_of (dict_keys fns)) as [lo|] eqn:Hlo; simpl; [|done].
  destruct (max_of (dict_keys fns)) as [hi|] eqn:Hhi; simpl; [|done].
  intros H. exists lo, hi.
  pose proof (read_polishing_over_spec read_bio_seq fns lo hi _ [] [] finals Hnd
                (NoDup_seqZ _ _) (λ pos _, eq_refl) H) as Hspec.
  assert (Hiters : ∀ i, 1 ≤ i ≤ p_num_iters (params self) →
            ∃ parts,
              Forall2 (artifact read_bio_seq fns i) (range lo (hi + 1)) parts ∧
              dict_get finals i = Some (String.concat EmptyString parts)).
  { intros i Hi. apply Hspec. apply elem_of_range. lia. }
  apply min_of_spec in Hlo as [Hlo_in Hlo]. apply max_of_spec in Hhi as [Hhi_in Hhi].
  split_and!; [done | done | done | done | | | done |].
  - intros k Hk. split; [by apply Hlo | by apply Hhi].
  - intros d tr Hd Hfns.
    destruct (export_read_units_total self d Hd) as (tr' & fns' & Heq & _ & Hget).
    rewrite Hfns in Heq. injection Heq as <- <-.
    assert (Hwin : ∀ k, k ∈ dict_keys fns → min_pos self ≤ k ≤ max_pos self).
    { intros k Hk. destruct (decide (k ∈ dict_keys d)) as [Hin|Hnin].
      - destruct (map_pos2read_from_keys _ _ _ _ _ Hd Hin) as [Hnil|?]; [|done].
        by apply elem_of_nil in Hnil.
      - specialize (Hget k). rewrite decide_False in Hget by done.
        by apply dict_get_None in Hget. }
    split; [apply (Hwin lo Hlo_in) | apply (Hwin hi Hhi_in)].
  - apply export_results_over_Ok. intros i Hi%elem_of_range.
    destruct (Hiters i) as (parts & _ & ->); [lia | by eexists].
Qed.

Lemma full_locus_is_concatenation_witness :
  ∃ lo hi,
    min_of (dict_keys short_read_filenames) = Ok lo ∧
    max_of (dict_keys short_read_filenames) = Ok hi ∧
    lo ∈ dict_keys short_read_filenames ∧ hi ∈ dict_keys short_read_filenames ∧
    (∀ k, k ∈ dict_keys short_read_filenames → lo ≤ k ≤ hi) ∧
    (∀ d tr, map_pos2read short_read = Ok d →
             export_read_units short_read d = (tr, Ok short_read_filenames) →
             min_pos short_read ≤ lo ∧ hi ≤ max_pos short_read) ∧
    (∀ i, 1 ≤ i ≤ p_num_iters (params short_read) →
       ∃ parts,
         Forall2 (artifact two_positions_tree short_read_filenames i)
                 (range lo (hi + 1)) parts ∧
         dict_get two_positions_finals i = Some (String.concat EmptyString parts)) ∧
    export_results short_read two_positions_finals =
      (range 1 (p_num_iters (params short_read) + 1) ≫= (λ i,
         [WriteBioSeqs (final_fn short_read i)
            [(polished_repeat i, default EmptyString (dict_get two_positions_finals i))];
          WriteBioSeqs (final_hpc_fn short_read i)
            [(polished_repeat i,
              compress_homopolymer
                (default EmptyString (dict_get two_positions_finals i)))]]),
       Ok tt).
Proof.
  apply (full_locus_is_concatenation two_positions_tree short_read short_read_filenames
           two_positions_finals).
  - by_compute.
  - vm_compute. reflexivity.
Defined.

(** C6 (as stated) fails: in the window [[0, 2]] the one read covers the
    positions 0 and 1; the assembler returns, and the sequence of the first
    iteration is no concatenation of polished sequences over all the
    positions of [[min_pos, max_pos]], the position 2 having none. *)
Lemma window_not_covered_counterexample :
  ¬ (∀ d tr fns finals i,
       map_pos2read short_read = Ok d →
       export_read_units short_read d = (tr, Ok fns) →
       read_polishing two_positions_tree short_read fns = Ok finals →
       1 ≤ i ≤ p_num_iters (params short_read) →
       ∃ parts,
         Forall2 (artifact two_positions_tree fns i)
                 (range (min_pos short_read) (max_pos short_read + 1)) parts ∧
         dict_get finals i = Some (String.concat EmptyString parts)).
Proof.
  intros H.
  destruct (H short_read_pool (export_read_units short_read short_read_pool).1
              short_read_filenames two_positions_finals 1) as (parts & Hparts & _).
  - vm_compute. reflexivity.
  - vm_compute. reflexivity.
  - vm_compute. reflexivity.
  - vm_compute. split; discriminate.
  - change (range (min_pos short_read) (max_pos short_read + 1)) with [0; 1; 2] in Hparts.
    apply Forall2_cons_inv_l in Hparts as (s0 & parts0 & _ & Hparts & _).
    apply Forall2_cons_inv_l in Hparts as (s1 & parts1 & _ & Hparts & _).
    apply Forall2_cons_inv_l in Hparts as (s2 & parts2 & (u & m & Hget & _) & _).
    vm_compute in Hget. discriminate Hget.
Qed.

Lemma min_of_Raise l e : min_of l = Raise e → l = [] ∧ e = ValueError.
Proof. destruct l; simpl; [by intros [= <-] | done]. Qed.

Lemma max_of_Raise l e : max_of l = Raise e → l = [] ∧ e = ValueError.
Proof. destruct l; simpl; [by intros [= <-] | done]. Qed.

(** C7 (as amended): let [lo] and [hi] be the smallest and the largest
    position with read units.  If a position of [[lo, hi]] has no [i]-th
    polished sequence for some [i] in [1 .. num_iters], the assembler raises
    and returns no sequence at all.  What it raises is [KeyError] with a
    position of [[lo, hi]] that has no read units, or the exception of
    [read_bio_seq] on a polished file of a position that has read units
    ([ValueError] when there are no read units at all).  The positions of
    the window outside [[lo, hi]] are not looked at. *)
Theorem missing_artifact_raises read_bio_seq self fns :
  NoDup (dict_keys fns) →
  (∀ lo hi pos i,
     min_of (dict_keys fns) = Ok lo → max_of (dict_keys fns) = Ok hi →
     lo ≤ pos ≤ hi → 1 ≤ i ≤ p_num_iters (params self) →
     (∀ s, ¬ artifact read_bio_seq fns i pos s) →
     ∃ e, read_polishing read_bio_seq self fns = Raise e) ∧
  (∀ e, read_polishing read_bio_seq self fns = Raise e →
     (fns = [] ∧ e = ValueError) ∨
     (∃ lo hi p, min_of (dict_keys fns) = Ok lo ∧ max_of (dict_keys fns) = Ok hi ∧
                 lo ≤ p ≤ hi ∧ dict_get fns p = None ∧ e = KeyError (KInt p)) ∨
     (∃ p u m j, dict_get fns p = Some (u, m) ∧
                 1 ≤ j ≤ p_num_iters (params self) ∧
                 read_bio_seq (polished_seq_fn u j) = Raise e)).
Proof.
  intros Hnd. split.
  - intros lo hi pos i Hlo Hhi Hpos Hi Hmiss.
    destruct (read_polishing read_bio_seq self fns) as [finals|e] eqn:H; [|by exists e].
    exfalso. unfold read_polishing in H. rewrite Hlo, Hhi in H. simpl in H.
    destruct (read_polishing_over_spec read_bio_seq fns lo hi _ [] [] finals Hnd
                (NoDup_seqZ _ _) (λ pos _, eq_refl) H i) as [Hin _].
    destruct Hin as (parts & Hparts & _); [apply elem_of_range; lia|].
    assert (Hp : pos ∈ range lo (hi + 1)) by (apply elem_of_range; lia).
    apply list_elem_of_lookup in Hp as [n Hn].
    destruct (Forall2_lookup_l _ _ _ _ _ Hparts Hn) as (s & _ & Hs).
    by apply (Hmiss s).
  - intros e. unfold read_polishing.
    destruct (min_of (dict_keys fns)) as [lo|e0] eqn:Hlo; simpl.
    + destruct (max_of (dict_keys fns)) as [hi|e1] eqn:Hhi; simpl.
      * intros [(p & Hp%elem_of_range & Hnone & ->)
               |(p & u & m & j & Hj%elem_of_range & Hget & Hr)]
          %read_polishing_over_Raise; [| |done|done].
        -- right; left. exists lo, hi, p. split_and!; first [done | lia].
        -- right; right. exists p, u, m, j. split_and!; first [done | lia].
      * intros [= <-]. apply max_of_Raise in Hhi as [Hnil ->].
        left. split; [|done]. by apply fmap_nil_inv in Hnil.
    + intros [= <-]. apply min_of_Raise in Hlo as [Hnil ->].
      left. split; [|done]. by apply fmap_nil_inv in Hnil.
Qed.

Lemma missing_artifact_raises_witness :
  (∃ e, read_polishing gapped_tree short_read gapped_filenames = Raise e) ∧
  read_polishing gapped_tree short_read gapped_filenames = Raise (KeyError (KInt 1)).
Proof.
  split; [|vm_compute; reflexivity].
  apply (proj1 (missing_artifact_raises gapped_tree short_read gapped_filenames
                  ltac:(by_compute)) 0 2 1 1).
  - vm_compute. reflexivity.
  - vm_compute. reflexivity.
  - lia.
  - vm_compute. split; discriminate.
  - intros s (u & m & Hget & _). vm_compute in Hget. discriminate Hget.
Defined.

(** C7 (as stated) fails: in the window [[0, 2]] the position 2 has no
    contributing read and no polished sequence, and the assembler returns
    the sequences of the positions 0 to 1 for both iterations. *)
Lemma unpooled_position_counterexample :
  ¬ (∀ d tr fns pos i,
       map_pos2read short_read = Ok d →
       export_read_units short_read d = (tr, Ok fns) →
       min_pos short_read ≤ pos ≤ max_pos short_read →
       1 ≤ i ≤ p_num_iters (params short_read) →
       pool d pos = [] →
       (∀ s, ¬ artifact two_positions_tree fns i pos s) →
       ∃ e, read_polishing two_positions_tree short_read fns = Raise e).
Proof.
  intros H.
  destruct (H short_read_pool (export_read_units short_read short_read_pool).1
              short_read_filenames 2 1) as [e He].
  - vm_compute. reflexivity.
  - vm_compute. reflexivity.
  - vm_compute. split; discriminate.
  - vm_compute. split; discriminate.
  - vm_compute. reflexivity.
  - intros s (u & m & Hget & _). vm_compute in Hget. discriminate Hget.
  - vm_compute in He. discriminate He.
Qed.

(** ** The convergence report *)

Lemma io_sim_refl {A : Type} (m : io A) : io_sim m m.
Proof. by split. Qed.

Lemma io_sim_bind {A B : Type} (m1 m2 : io A) (f1 f2 : A → io B) :
  io_sim m1 m2 → (∀ a, io_sim (f1 a) (f2 a)) → io_sim (io_bind m1 f1) (io_bind m2 f2).
Proof.
  destruct m1 as [t1 r1], m2 as [t2 r2]. intros [Ht Hr] Hf. simpl in Ht, Hr. subst r2.
  destruct r1 as [a|e]; simpl; [|by split].
  destruct (Hf a) as [Ht' Hr']. destruct (f1 a) as [t1' r1'], (f2 a) as [t2' r2'].
  simpl in *. split; simpl; [|done]. rewrite !fmap_app. congruence.
Qed.

Lemma compare_pair_sim a1 a2 fn finals i :
  io_sim (compare_pair a1 fn finals i) (compare_pair a2 fn finals i).
Proof.
  unfold compare_pair, io_bind, lift, emit, dict_getitem.
  destruct (dict_get finals i); [|by split].
  destruct (dict_get finals (i + 1)); by split.
Qed.

Lemma compare_over_sim a1 a2 fn finals iters :
  io_sim (compare_over a1 fn finals iters) (compare_over a2 fn finals iters).
Proof.
  induction iters as [|i iters IH]; simpl; [by split|].
  apply io_sim_bind; [apply compare_pair_sim | done].
Qed.

Lemma run_sim read_bio_seq check_call a1 a2 self :
  io_sim (run read_bio_seq check_call a1 self) (run read_bio_seq check_call a2 self).
Proof.
  unfold run.
  apply io_sim_bind; [apply io_sim_refl | intros pos2read].
  apply io_sim_bind; [apply io_sim_refl | intros fns].
  apply io_sim_bind; [apply io_sim_refl | intros _].
  apply io_sim_bind; [apply io_sim_refl | intros finals].
  apply io_sim_bind; [|intros _; apply io_sim_refl].
  unfold compare_polished_sequences.
  apply io_sim_bind; [apply io_sim_refl | intros _]. apply compare_over_sim.
Qed.

Lemma compare_over_Ok edlib_align fn finals iters :
  (∀ i, i ∈ iters → is_Some (dict_get finals i) ∧ is_Some (dict_get finals (i + 1))) →
  compare_over edlib_align fn finals iters =
    (iters ≫= (λ i,
       [PrintTo fn (raw_title i);
        PrintTo fn (edlib_align (default EmptyString (dict_get finals i))
                                (default EmptyString (dict_get finals (i + 1))));
        PrintTo fn (hpc_title i);
        PrintTo fn (edlib_align
                      (compress_homopolymer (default EmptyString (dict_get finals i)))
                      (compress_homopolymer
                         (default EmptyString (dict_get finals (i + 1)))))]),
     Ok tt).
Proof.
  induction iters as [|i0 iters IH]; intros Hall; [done|].
  cbn [compare_over]. rewrite IH
    by (intros i Hi; apply Hall; by apply list_elem_of_further).
  destruct (Hall i0) as [[s Hs] [s1 Hs1]]; [apply list_elem_of_here|].
  unfold compare_pair, io_bind, lift, emit, dict_getitem.
  rewrite bind_cons, Hs, Hs1. reflexivity.
Qed.

(** C8: when the sequences of the iterations [1 .. num_iters] are there,
    the report is opened and receives, for [i = 1 .. num_iters - 1] in this
    order, a title and the alignment of the sequences [i] and [i + 1], then
    a title and the alignment of their compressed forms, and nothing else;
    with two iterations this is the one comparison of 1 with 2.  The
    sequences the assembler returns are there.  The alignments change
    nothing but the text of these lines: with another alignment function
    [run] raises or returns alike and leaves the same other events. *)
Theorem one_comparison_per_pair :
  (∀ edlib_align self finals,
     (∀ i, 1 ≤ i ≤ p_num_iters (params self) → is_Some (dict_get finals i)) →
     compare_polished_sequences edlib_align self finals =
       (OpenWrite (report_fn self) ::
        (range 1 (p_num_iters (params self)) ≫= (λ i,
           [PrintTo (report_fn self) (raw_title i);
            PrintTo (report_fn self)
              (edlib_align (default EmptyString (dict_get finals i))
                           (default EmptyString (dict_get finals (i + 1))));
            PrintTo (report_fn self) (hpc_title i);
            PrintTo (report_fn self)
              (edlib_align
                 (compress_homopolymer (default EmptyString (dict_get finals i)))
                 (compress_homopolymer
                    (default EmptyString (dict_get finals (i + 1)))))])),
        Ok tt) ∧
     (p_num_iters (params self) = 2 →
      compare_polished_sequences edlib_align self finals =
        ([OpenWrite (report_fn self);
          PrintTo (report_fn self) (raw_title 1);
          PrintTo (report_fn self)
            (edlib_align (default EmptyString (dict_get finals 1))
                         (default EmptyString (dict_get finals 2)));
          PrintTo (report_fn self) (hpc_title 1);
          PrintTo (report_fn self)
            (edlib_align
               (compress_homopolymer (default EmptyString (dict_get finals 1)))
               (compress_homopolymer (default EmptyString (dict_get finals 2))))],
         Ok tt))) ∧
  (∀ read_bio_seq self fns finals,
     NoDup (dict_keys fns) → read_polishing read_bio_seq self fns = Ok finals →
     ∀ i, 1 ≤ i ≤ p_num_iters (params self) → is_Some (dict_get finals i)) ∧
  (∀ read_bio_seq check_call align1 align2 self,
     blank <$> (run read_bio_seq check_call align1 self).1 =
     blank <$> (run read_bio_seq check_call align2 self).1 ∧
     (run read_bio_seq check_call align1 self).2 =
     (run read_bio_seq check_call align2 self).2).
Proof.
  split_and!.
  - intros edlib_align self finals Hall.
    assert (Heq : compare_polished_sequences edlib_align self finals =
       (OpenWrite (report_fn self) ::
        (range 1 (p_num_iters (params self)) ≫= (λ i,
           [PrintTo (report_fn self) (raw_title i);
            PrintTo (report_fn self)
              (edlib_align (default EmptyString (dict_get finals i))
                           (default EmptyString (dict_get finals (i + 1))));
            PrintTo (report_fn self) (hpc_title i);
            PrintTo (report_fn self)
              (edlib_align
                 (compress_homopolymer (default EmptyString (dict_get finals i)))
                 (compress_homopolymer
                    (default EmptyString (dict_get finals (i + 1)))))])),
        Ok tt)).
    { unfold compare_polished_sequences. rewrite compare_over_Ok; [done|].
      intros i Hi%elem_of_range. split; apply Hall; lia. }
    split; [done|]. intros Hn. rewrite Heq, Hn. reflexivity.
  - intros read_bio_seq self fns finals Hnd H i Hi.
    unfold read_polishing in H.
    destruct (min_of (dict_keys fns)) as [lo|]; simpl in H; [|done].
    destruct (max_of (dict_keys fns)) as [hi|]; simpl in H; [|done].
    destruct (read_polishing_over_spec read_bio_seq fns lo hi _ [] [] finals Hnd
                (NoDup_seqZ _ _) (λ pos _, eq_refl) H i) as [Hin _].
    destruct Hin as (parts & _ & ->); [apply elem_of_range; lia | by eexists].
  - intros. apply run_sim.
Qed.

Lemma one_comparison_per_pair_witness :
  compare_polished_sequences sample_align short_read two_positions_finals =
    ([OpenWrite "out/report.txt";
      PrintTo "out/report.txt" "Alignment polishing seq 1 vs 2:";
      PrintTo "out/report.txt" "AACACG ~ AAACACGG";
      PrintTo "out/report.txt" "Alignment homopolymer compressed polishing seq 1 vs 2:";
      PrintTo "out/report.txt" "ACACG ~ ACACG"],
     Ok tt) ∧
  ∀ i, 1 ≤ i ≤ p_num_iters (params short_read) →
       is_Some (dict_get two_positions_finals i).
Proof.
  assert (Hall : ∀ i, 1 ≤ i ≤ p_num_iters (params short_read) →
                      is_Some (dict_get two_positions_finals i)).
  { apply (proj1 (proj2 one_comparison_per_pair) two_positions_tree short_read
             short_read_filenames two_positions_finals).
    - by_compute.
    - vm_compute. reflexivity. }
  split; [|exact Hall].
  apply (proj2 (proj1 one_comparison_per_pair sample_align short_read
                  two_positions_finals Hall)).
  reflexivity.
Defined.

(** * Further properties *)

(** ** The placement table *)

Lemma read_reported_positions_from lines (d : list (string * option Z)) r :
  dict_get (foldl (λ pos line, dict_set pos line.1 line.2) d lines) r =
  match last (filter (λ line, line.1 = r) lines) with
  | Some line => Some line.2
  | None => dict_get d r
  end.
Proof.
  revert d. induction lines as [|line lines IH]; intros d; [done|].
  cbn [foldl]. rewrite IH, filter_cons. case_decide as Hr.
  - rewrite last_cons. destruct (last (filter _ lines)); [done|].
    rewrite <- Hr. by rewrite dict_get_set_eq.
  - destruct (last (filter _ lines)); [done|]. by rewrite dict_get_set_ne.
Qed.

(** X1: in the table returned by [read_reported_positions] no read has two
    entries, and the placement of a read is the one given by the last line
    of the file that names it (none if no line does). *)
Theorem read_reported_positions_last_wins lines r :
  NoDup (dict_keys (read_reported_positions lines)) ∧
  dict_get (read_reported_positions lines) r =
    snd <$> last (filter (λ line, line.1 = r) lines).
Proof.
  split.
  - unfold read_reported_positions.
    assert (H : ∀ d : list (string * option Z), NoDup (dict_keys d) →
              NoDup (dict_keys (foldl (λ pos line, dict_set pos line.1 line.2) d lines))).
    { induction lines as [|line lines IH]; intros d Hd; simpl; [done|].
      apply IH. by apply dict_set_NoDup. }
    apply H, NoDup_nil_2.
  - unfold read_reported_positions. rewrite read_reported_positions_from.
    by destruct (last (filter _ lines)).
Qed.

(** ** The bounds and the resolver together *)

Lemma resolve_max_pos_outcome mas items cur :
  (∃ m, resolve_max_pos mas items cur = Ok m ∧
        ∀ r pos, (r, Some pos) ∈ items → is_Some (mas !! r)) ∨
  (∃ r pos, (r, Some pos) ∈ items ∧ mas !! r = None ∧
            resolve_max_pos mas items cur = Raise (KeyError (KStr r))).
Proof.
  revert cur. induction items as [|[r0 [pos|]] items IH]; intros cur;
    cbn [resolve_max_pos].
  - left. exists cur. split; [done|]. intros r pos H. by apply elem_of_nil in H.
  - unfold motif_getitem. destruct (mas !! r0) as [ma0|] eqn:Hma0; simpl.
    + destruct (IH (Z.max cur (pos + len ma0))) as [(m & Hm & Hall)|(r & p & Hin & ?)].
      * left. exists m. split; [done|].
        intros r p [[= -> ->]|Hin]%elem_of_cons; [by rewrite Hma0 | by eapply Hall].
      * right. exists r, p. split; [by apply list_elem_of_further | done].
    + right. exists r0, pos. split_and!; [apply list_elem_of_here | done..].
  - destruct (IH cur) as [(m & Hm & Hall)|(r & p & Hin & ?)].
    + left. exists m. split; [done|].
      intros r p [[=]|Hin]%elem_of_cons. by eapply Hall.
    + right. exists r, p. split; [by apply list_elem_of_further | done].
Qed.

(** X2: [__init__] raises only when [max_pos] is left unbounded and some
    placed read has no motif alignment: the exception is the [KeyError] of
    such a read.  With an explicit [max_pos] it raises nothing, whatever the
    placement table and the alignments are. *)
Theorem init_outcome ps mas rp :
  (∃ self, init ps mas rp = Ok self ∧ read_placement self = rp ∧
           motif_alignments self = mas ∧ min_pos self = p_min_pos ps ∧
           (p_max_pos ps = Inf →
            ∀ r pos, (r, Some pos) ∈ rp → is_Some (mas !! r))) ∨
  (p_max_pos ps = Inf ∧
   ∃ r pos, (r, Some pos) ∈ rp ∧ mas !! r = None ∧
            init ps mas rp = Raise (KeyError (KStr r))).
Proof.
  unfold init. destruct (p_max_pos ps) as [|z] eqn:Hmax; simpl.
  - destruct (resolve_max_pos_outcome mas rp 0) as [(m & -> & Hall)|(r & p & Hin & Hnone & ->)].
    + left. eexists. simpl. split_and!; try done.
    + right. split; [done|]. by exists r, p.
  - left. eexists. split_and!; try done.
Qed.

(** X3: when [max_pos] is left unbounded and [__init__] returns, the
    resolver raises nothing, no placed read starts beyond [max_pos], and
    every pooled position is at least [min_pos] and strictly below
    [max_pos]: the position [max_pos] itself is never pooled. *)
Theorem default_bound_pools_below_max ps mas rp self :
  p_max_pos ps = Inf → init ps mas rp = Ok self →
  ∃ d, map_pos2read self = Ok d ∧
       (∀ r pos, (r, Some pos) ∈ rp → pos ≤ max_pos self) ∧
       (∀ k, k ∈ dict_keys d → min_pos self ≤ k < max_pos self).
Proof.
  intros Hinf. unfold init. rewrite Hinf. simpl.
  destruct (resolve_max_pos mas rp 0) as [m|] eqn:Hm; simpl; [|done].
  intros [= <-].
  destruct (resolve_max_pos_spec _ _ _ _ Hm) as (_ & Hub & _).
  destruct (resolve_max_pos_outcome mas rp 0) as [(m' & _ & Hall)|(r & p & _ & _ & Hr)];
    [|congruence].
  assert (Hle : ∀ r pos, (r, Some pos) ∈ rp → pos ≤ m).
  { intros r pos Hin. destruct (Hall r pos Hin) as [ma Hma].
    specialize (Hub r pos ma Hin Hma). unfold len in Hub. lia. }
  set (self := {| params := ps; motif_alignments := mas; read_placement := rp;
                  max_pos := m; min_pos := p_min_pos ps |}).
  destruct (map_pos2read_from_outcome self rp [])
    as [(d & Hd & _)|(r & p & Hin & _ & Hnone & _)].
  - exists d. split_and!; [done | done |].
    intros k Hk. pose proof (map_pos2read_nonempty self d k Hd Hk) as Hne.
    destruct (pool d k) as [|[r i] occs] eqn:Hpool; [done|].
    assert (Hin : (r, i) ∈ pool d k) by (rewrite Hpool; apply list_elem_of_here).
    apply (map_pos2read_pool _ _ _ _ _ Hd) in Hin
      as (pos & ma & Hr & _ & Hma & Hi & Hw & ->).
    simpl in *. specialize (Hub r pos ma Hr Hma).
    apply elem_of_positions in Hi. case_decide; lia.
  - destruct (Hall r p Hin) as [ma Hma]. simpl in Hnone. congruence.
Qed.

Lemma default_bound_pools_below_max_witness :
  ∃ d, map_pos2read (sample_polisher three_reads mixed_placement 0 53 2) = Ok d ∧
       (∀ r pos, (r, Some pos) ∈ mixed_placement →
                 pos ≤ max_pos (sample_polisher three_reads mixed_placement 0 53 2)) ∧
       (∀ k, k ∈ dict_keys d →
             min_pos (sample_polisher three_reads mixed_placement 0 53 2) ≤ k
             < max_pos (sample_polisher three_reads mixed_placement 0 53 2)).
Proof.
  apply (default_bound_pools_below_max (sample_params 0 Inf 2) three_reads mixed_placement
           {| params := sample_params 0 Inf 2; motif_alignments := three_reads;
              read_placement := mixed_placement; max_pos := 53; min_pos := 0 |}).
  - reflexivity.
  - vm_compute. reflexivity.
Defined.

(** ** The order and the multiplicity of the pooled occurrences *)

Lemma add_occurrences_pool_eq self r0 pos idxs d k :
  pool (add_occurrences self r0 pos idxs d) k =
  pool d k ++
  ((λ i, (r0, i)) <$>
   filter (λ i, min_pos self ≤ pos + i ≤ max_pos self ∧ pos + i = k) idxs).
Proof.
  unfold add_occurrences. revert d.
  induction idxs as [|j idxs IH]; intros d; cbn [foldl].
  - by rewrite filter_nil, fmap_nil, app_nil_r.
  - rewrite IH, filter_cons. case_decide as Hw.
    + rewrite pool_append. case_decide as Hk.
      * rewrite (decide_True (P := _ ∧ pos + j = k)) by done.
        rewrite fmap_cons, <- app_assoc. by subst k.
      * rewrite (decide_False (P := _ ∧ pos + j = k)) by (by intros [_ ?]). done.
    + rewrite (decide_False (P := _ ∧ pos + j = k)) by (by intros [? _]). done.
Qed.

Lemma map_pos2read_from_pool_eq self items d d' k :
  map_pos2read_from self items d = Ok d' →
  pool d' k = pool d k ++ (items ≫= pooled_at self k).
Proof.
  revert d. induction items as [|[r0 [pos|]] items IH]; intros d;
    cbn [map_pos2read_from].
  - intros [= <-]. by rewrite app_nil_r.
  - rewrite bind_cons. unfold pooled_at at 1. cbn [fst snd]. case_decide as Hgt.
    + apply IH.
    + unfold motif_getitem.
      destruct (motif_alignments self !! r0) as [ma0|] eqn:Hma0; simpl; [|done].
      intros ->%IH. by rewrite add_occurrences_pool_eq, <- app_assoc.
  - rewrite bind_cons. apply IH.
Qed.

(** X4: every list of the pool holds its entries in the order of the
    placement table, and for one read in ascending local index: it is the
    concatenation, over the items of [read_placement] in their order, of what
    each item puts under that position. *)
Theorem pool_in_placement_order self d k :
  map_pos2read self = Ok d →
  pool d k = read_placement self ≫= pooled_at self k.
Proof. intros H. by rewrite (map_pos2read_from_pool_eq _ _ _ _ k H). Qed.

Lemma pool_in_placement_order_witness :
  pool [(0, [("r1", 0); ("r2", 0)]); (1, [("r1", 1); ("r2", 1)]); (2, [("r1", 2)])] 1 =
  read_placement
    (sample_polisher {[ "r1" := three_units; "r2" := [unit_of "AC"; unit_of "CA"] ]}
       [("r1", Some 0); ("r0", None); ("r2", Some 0)] 0 10 2)
  ≫= pooled_at
       (sample_polisher {[ "r1" := three_units; "r2" := [unit_of "AC"; unit_of "CA"] ]}
          [("r1", Some 0); ("r0", None); ("r2", Some 0)] 0 10 2) 1.
Proof.
  apply (pool_in_placement_order
           (sample_polisher {[ "r1" := three_units; "r2" := [unit_of "AC"; unit_of "CA"] ]}
              [("r1", Some 0); ("r0", None); ("r2", Some 0)] 0 10 2)).
  vm_compute. reflexivity.
Defined.

Lemma pooled_at_one self k item :
  pooled_at self k item = [] ∨ ∃ i, pooled_at self k item = [(item.1, i)].
Proof.
  unfold pooled_at. destruct (item.2) as [pos|]; [|by left].
  case_decide; [by left|].
  set (l := filter _ _).
  assert (Hnd : NoDup l)
    by (apply NoDup_filter; unfold positions, range; case_decide; apply NoDup_seqZ).
  assert (Hall : ∀ i, i ∈ l → i = k - pos).
  { intros i [[_ ?] _]%list_elem_of_filter. lia. }
  destruct l as [|i [|j l]]; [by left | right; by exists i |].
  exfalso. apply NoDup_cons in Hnd as [Hi _]. apply Hi.
  rewrite (Hall i), (Hall j); [apply list_elem_of_here | |];
    [apply list_elem_of_further, list_elem_of_here | apply list_elem_of_here].
Qed.

Lemma bind_pooled_at_ids self k items :
  NoDup (dict_keys items) →
  NoDup (items ≫= pooled_at self k).*1 ∧
  ∀ r, r ∈ (items ≫= pooled_at self k).*1 → r ∈ dict_keys items.
Proof.
  unfold dict_keys. induction items as [|item items IH]; intros Hnd.
  - split; [apply NoDup_nil_2|]. intros r Hr. by apply elem_of_nil in Hr.
  - rewrite fmap_cons in Hnd. apply NoDup_cons in Hnd as [Hitem Hnd].
    destruct (IH Hnd) as [IHnd IHin]. rewrite bind_cons, fmap_app, fmap_cons.
    destruct (pooled_at_one self k item) as [->|[i ->]]; simpl.
    + split; [done|]. intros r Hr. apply list_elem_of_further. by apply IHin.
    + split.
      * apply NoDup_cons. split; [|done]. intros Hin. by apply Hitem, IHin.
      * intros r [->|Hr]%elem_of_cons; [apply list_elem_of_here|].
        apply list_elem_of_further. by apply IHin.
Qed.

(** X5: no read occurs twice in a list of the pool: a position receives at
    most one occurrence of each read. *)
Theorem one_occurrence_per_read self d k :
  NoDup (dict_keys (read_placement self)) →
  map_pos2read self = Ok d →
  NoDup (pool d k).*1.
Proof.
  intros Hnd Hd. rewrite (map_pos2read_from_pool_eq _ _ _ _ k Hd). simpl.
  by apply bind_pooled_at_ids.
Qed.

Lemma one_occurrence_per_read_witness : NoDup (pool anchored_start_pool 1).*1.
Proof.
  apply (one_occurrence_per_read anchored_start anchored_start_pool 1).
  - by_compute.
  - vm_compute. reflexivity.
Defined.

(** ** The candidates and the median read unit *)

Lemma ascii_upper_not_lower c :
  ¬ (97 ≤ N_of_ascii (ascii_upper c) ∧ N_of_ascii (ascii_upper c) ≤ 122)%N.
Proof.
  unfold ascii_upper. case_decide as Hc; [|done].
  rewrite N_ascii_embedding by lia. lia.
Qed.

Lemma elem_of_upper x s :
  x ∈ list_ascii_of_string (upper s) →
  ∃ y, y ∈ list_ascii_of_string s ∧ x = ascii_upper y.
Proof.
  induction s as [|c s IH]; simpl.
  - intros H. by apply elem_of_nil in H.
  - intros [->|H]%elem_of_cons.
    + exists c. split; [apply list_elem_of_here | done].
    + destruct (IH H) as (y & Hy & ->). exists y.
      split; [by apply list_elem_of_further | done].
Qed.

Lemma elem_of_remove_char c x s :
  x ∈ list_ascii_of_string (remove_char c s) →
  x ≠ c ∧ x ∈ list_ascii_of_string s.
Proof.
  induction s as [|c' s IH]; simpl.
  - intros H. by apply elem_of_nil in H.
  - case_decide as Hc.
    + intros [? ?]%IH. split; [done | by apply list_elem_of_further].
    + intros [->|[? ?]%IH]%elem_of_cons.
      * split; [done | apply list_elem_of_here].
      * split; [done | by apply list_elem_of_further].
Qed.

(** X6: every candidate sequence collected for a position, and so every
    sequence written to [read_units.fasta] and the median read unit, holds
    no gap symbol and no lower-case letter. *)
Theorem candidates_are_clean self pos occs seqs name u c :
  collect_seqs self pos occs [] = Ok seqs →
  (name, u) ∈ seqs → c ∈ list_ascii_of_string u →
  c ≠ "-"%char ∧ ¬ (97 ≤ N_of_ascii c ∧ N_of_ascii c ≤ 122)%N.
Proof.
  intros Hseqs Hin Hc.
  destruct (collect_seqs_entries _ _ _ _ _ _ _ Hseqs Hin)
    as [Hnil|(r & p & ma & rec & _ & _ & _ & _ & ->)]; [by apply elem_of_nil in Hnil|].
  unfold clean in Hc. apply elem_of_remove_char in Hc as [Hgap Hc].
  split; [done|]. apply elem_of_upper in Hc as (y & _ & ->).
  apply ascii_upper_not_lower.
Qed.

Lemma candidates_are_clean_witness :
  "C"%char ≠ "-"%char ∧
  ¬ (97 ≤ N_of_ascii "C"%char ∧ N_of_ascii "C"%char ≤ 122)%N.
Proof.
  apply (candidates_are_clean anchored_start 1 [("r1", 1)]
           [("gen_pos=1|r_id=r1|r_pos=1", "ACG")] "gen_pos=1|r_id=r1|r_pos=1" "ACG").
  - vm_compute. reflexivity.
  - by_compute.
  - by_compute.
Defined.

Lemma filter_none {A : Type} (P : A → Prop) `{!∀ x, Decision (P x)} (l : list A) :
  (∀ x, x ∈ l → ¬ P x) → filter P l = [].
Proof.
  induction l as [|x l IH]; intros Hall; [done|].
  rewrite filter_cons_False by apply Hall, list_elem_of_here.
  apply IH. intros y Hy. by apply Hall, list_elem_of_further.
Qed.

Lemma median_high_order_statistic data m :
  median_high data = Ok m →
  (2 * length (filter (λ n, n < m)%nat data) ≤ length data)%nat ∧
  (2 * length (filter (λ n, m < n)%nat data) < length data)%nat.
Proof.
  unfold median_high, sorted_nat.
  rewrite <- (merge_sort_Permutation Nat.le data) at 3 4 5 6.
  set (l := merge_sort Nat.le data).
  assert (Hs : StronglySorted Nat.le l) by apply (StronglySorted_merge_sort _).
  destruct (l !! (length l / 2)%nat) as [x|] eqn:Hx; [|done]. intros [= ->].
  pose proof (lookup_lt_Some _ _ _ Hx) as Hlt.
  rewrite <- (take_drop_middle _ _ _ Hx) in Hs |- *.
  apply StronglySorted_app in Hs as (Hle1 & _ & Hs2).
  apply StronglySorted_inv in Hs2 as [_ Hge].
  rewrite Forall_forall in Hge.
  set (l1 := take (length l / 2) l) in *. set (l2 := drop (S (length l / 2)) l) in *.
  assert (Hl1 : length l1 = (length l / 2)%nat) by (apply length_take_le; lia).
  assert (Hlow : filter (λ n, n < m)%nat (m :: l2) = []).
  { apply filter_none. intros y [->|Hy%Hge]%elem_of_cons; lia. }
  assert (Hhigh : filter (λ n, m < n)%nat l1 = []).
  { apply filter_none. intros y Hy.
    specialize (Hle1 y m Hy (list_elem_of_here _ _)). lia. }
  rewrite !filter_app, Hlow, Hhigh, app_nil_r, app_nil_l.
  rewrite filter_cons_False by lia.
  pose proof (length_filter (λ n, n < m)%nat l1) as H1.
  pose proof (length_filter (λ n, m < n)%nat l2) as H2.
  rewrite length_app. simpl.
  pose proof (Nat.div_mod_eq (length l1 + S (length l2)) 2) as Hdiv.
  pose proof (Nat.mod_upper_bound (length l1 + S (length l2)) 2) as Hmod.
  assert (Hl : length l = (length l1 + S (length l2))%nat).
  { rewrite <- (take_drop_middle _ _ _ Hx) at 1. by rewrite length_app. }
  rewrite Hl in Hl1. lia.
Qed.

(** X7: the median read unit is a median by length: at most half of the
    candidates are shorter than it and fewer than half are longer. *)
Theorem median_unit_splits_lengths seqs t u :
  select_median seqs = Ok (t, u) →
  (2 * length (filter (λ n, n < String.length u)%nat
                 (String.length <$> dict_values seqs))
   ≤ length seqs)%nat ∧
  (2 * length (filter (λ n, String.length u < n)%nat
                 (String.length <$> dict_values seqs))
   < length seqs)%nat.
Proof.
  unfold select_median.
  destruct (median_high (String.length <$> dict_values seqs)) as [med|] eqn:Hmed;
    simpl; [|done].
  destruct (scan_median seqs med (sorted_str (dict_keys seqs))) as [[mru [t'|]]|];
    simpl; [| done | done].
  destruct (dict_getitem KStr seqs t') as [tseq|]; simpl; [|done].
  case_decide; [|done]. case_decide as Hlen; [|done]. intros [= _ <-].
  apply median_high_order_statistic in Hmed. rewrite Hlen.
  unfold dict_values in *. by rewrite !length_fmap in Hmed.
Qed.

Lemma median_unit_splits_lengths_witness :
  (2 * length (filter (λ n, n < String.length "AACGT")%nat
                 (String.length <$> dict_values seqs_at_7))
   ≤ length seqs_at_7)%nat ∧
  (2 * length (filter (λ n, String.length "AACGT" < n)%nat
                 (String.length <$> dict_values seqs_at_7))
   < length seqs_at_7)%nat.
Proof.
  apply (median_unit_splits_lengths seqs_at_7 "gen_pos=7|r_id=r1|r_pos=0" "AACGT").
  vm_compute. reflexivity.
Defined.

Lemma list_getitem_Raise {A : Type} (l : list A) i e :
  list_getitem l i = Raise e → e = IndexError ∧ ¬ (- len l ≤ i < len l).
Proof.
  unfold list_getitem, len.
  destruct (decide (i < 0)) as [Hneg|Hpos].
  - case_decide as Hj; [|intros [= <-]; split; [done | lia]].
    destruct (l !! Z.to_nat (i + Z.of_nat (length l))) eqn:Hl; [done|].
    apply lookup_ge_None in Hl. lia.
  - case_decide as Hj; [|lia].
    destruct (l !! Z.to_nat i) eqn:Hl; [done|].
    apply lookup_ge_None in Hl. intros [= <-]. split; [done | lia].
Qed.

Lemma collect_seqs_Raise self pos occs seqs0 e :
  collect_seqs self pos occs seqs0 = Raise e →
  (∃ r p, (r, p) ∈ occs ∧ motif_alignments self !! r = None ∧ e = KeyError (KStr r)) ∨
  (∃ r p ma, (r, p) ∈ occs ∧ motif_alignments self !! r = Some ma ∧
             ¬ (- len ma ≤ p < len ma) ∧ e = IndexError).
Proof.
  revert seqs0. induction occs as [|[r p] occs IH]; intros seqs0; simpl; [done|].
  unfold motif_getitem. destruct (motif_alignments self !! r) as [ma|] eqn:Hma; simpl.
  - destruct (list_getitem ma p) as [rec|e'] eqn:Hrec; simpl.
    + intros [(r' & p' & Hin & ?)|(r' & p' & ma' & Hin & ?)]%IH.
      * left. exists r', p'. split; [by apply list_elem_of_further | done].
      * right. exists r', p', ma'. split; [by apply list_elem_of_further | done].
    + intros [= <-]. apply list_getitem_Raise in Hrec as [-> Hp].
      right. exists r, p, ma. split_and!; [apply list_elem_of_here | done..].
  - intros [= <-]. left. exists r, p. split_and!; [apply list_elem_of_here | done..].
Qed.

Lemma export_pos_cases self pos occs :
  (∃ seqs t u,
     occs ≠ [] ∧ collect_seqs self pos occs [] = Ok seqs ∧
     select_median seqs = Ok (t, u) ∧
     export_pos self pos occs =
       ([Makedirs (pos_outdir self pos);
         WriteBioSeqs (units_fn_of (pos_outdir self pos)) seqs;
         WriteBioSeqs (median_read_unit_fn_of (pos_outdir self pos)) [(t, u)]],
        Ok (units_fn_of (pos_outdir self pos),
            median_read_unit_fn_of (pos_outdir self pos)))) ∨
  (occs = [] ∧
   export_pos self pos occs = ([Makedirs (pos_outdir self pos)], Raise StatisticsError)) ∨
  (∃ r p, (r, p) ∈ occs ∧ motif_alignments self !! r = None ∧
          export_pos self pos occs =
            ([Makedirs (pos_outdir self pos)], Raise (KeyError (KStr r)))) ∨
  (∃ r p ma, (r, p) ∈ occs ∧ motif_alignments self !! r = Some ma ∧
             ¬ (- len ma ≤ p < len ma) ∧
             export_pos self pos occs =
               ([Makedirs (pos_outdir self pos)], Raise IndexError)).
Proof.
  destruct (collect_seqs self pos occs []) as [seqs|e] eqn:Hseqs.
  - destruct occs as [|occ occs].
    + right; left. split; [done|]. by vm_compute.
    + left. destruct (select_median_first seqs)
        as (med & before & t & after & u & _ & _ & _ & _ & _ & _ & Hsel).
      { by apply (collect_seqs_nonempty self pos (occ :: occs)). }
      { by eapply collect_seqs_NoDup. }
      exists seqs, t, u. split_and!; [done | done | done |]. by apply export_pos_Ok.
  - right; right.
    assert (Heq : export_pos self pos occs = ([Makedirs (pos_outdir self pos)], Raise e)).
    { unfold export_pos, io_bind, emit, lift. by rewrite Hseqs. }
    destruct (collect_seqs_Raise _ _ _ _ _ Hseqs)
      as [(r & p & Hin & Hnone & ->)|(r & p & ma & Hin & Hma & Hp & ->)].
    + left. by exists r, p.
    + right. by exists r, p, ma.
Qed.

(** X8: the body of [export_read_units] for one position either writes the
    candidates and one median read unit, or raises before writing any file,
    the directory being made: [StatisticsError] for an empty pool, [KeyError]
    for an occurrence of a read without motif alignment, [IndexError] for a
    local index outside the alignment.  The assertions of lines 91-92 never
    fail. *)
Theorem export_pos_outcome self pos occs :
  (∃ seqs t u,
     occs ≠ [] ∧ collect_seqs self pos occs [] = Ok seqs ∧
     select_median seqs = Ok (t, u) ∧
     export_pos self pos occs =
       ([Makedirs (pos_outdir self pos);
         WriteBioSeqs (units_fn_of (pos_outdir self pos)) seqs;
         WriteBioSeqs (median_read_unit_fn_of (pos_outdir self pos)) [(t, u)]],
        Ok (units_fn_of (pos_outdir self pos),
            median_read_unit_fn_of (pos_outdir self pos)))) ∨
  (occs = [] ∧
   export_pos self pos occs = ([Makedirs (pos_outdir self pos)], Raise StatisticsError)) ∨
  (∃ r p, (r, p) ∈ occs ∧ motif_alignments self !! r = None ∧
          export_pos self pos occs =
            ([Makedirs (pos_outdir self pos)], Raise (KeyError (KStr r)))) ∨
  (∃ r p ma, (r, p) ∈ occs ∧ motif_alignments self !! r = Some ma ∧
             ¬ (- len ma ≤ p < len ma) ∧
             export_pos self pos occs =
               ([Makedirs (pos_outdir self pos)], Raise IndexError)).
Proof. apply export_pos_cases. Qed.

Lemma export_read_units_over_keys self d keys fns0 tr fns :
  NoDup (dict_keys fns0 ++ keys) →
  export_read_units_over self d keys fns0 = (tr, Ok fns) →
  dict_keys fns = dict_keys fns0 ++ keys ∧ length tr = (3 * length keys)%nat.
Proof.
  revert fns0 tr. induction keys as [|k0 keys IH]; intros fns0 tr Hnd;
    cbn [export_read_units_over].
  - intros [= <- <-]. by rewrite app_nil_r.
  - destruct (export_pos_cases self k0 (pool d k0))
      as [(seqs & t & u & _ & _ & _ & ->)|[[_ ->]|[(r & p & _ & _ & ->)
         |(r & p & ma & _ & _ & _ & ->)]]]; cbn [io_bind]; [|done..].
    destruct (export_read_units_over self d keys _) as [tr' r'] eqn:Hrest.
    intros [= <- ->].
    assert (Hk0 : k0 ∉ dict_keys fns0).
    { apply NoDup_app in Hnd as (_ & Hdisj & _). intros Hin.
      apply (Hdisj k0 Hin), list_elem_of_here. }
    apply IH in Hrest as [-> Hlen].
    + rewrite dict_keys_set_notin by done. rewrite <- app_assoc. split; [done|].
      simpl. lia.
    + rewrite dict_keys_set_notin by done. by rewrite <- app_assoc.
Qed.



(** ** Paths *)

Lemma chars_app s1 s2 :
  list_ascii_of_string (s1 +:+ s2) = list_ascii_of_string s1 ++ list_ascii_of_string s2.
Proof. induction s1 as [|c s1 IH]; [done|]. cbn. by rewrite <- IH. Qed.

Lemma chars_inj s1 s2 : list_ascii_of_string s1 = list_ascii_of_string s2 → s1 = s2.
Proof.
  intros H. rewrite <- (string_of_list_ascii_of_string s1),
    <- (string_of_list_ascii_of_string s2). by rewrite H.
Qed.

Lemma uint_digits d :
  Forall is_digit (list_ascii_of_string (NilEmpty.string_of_uint d)).
Proof.
  induction d; simpl; [constructor|..];
    (constructor; [unfold is_digit; vm_compute; split; discriminate | done]).
Qed.

(** [str(z)] is an optional minus sign followed by at least one digit. *)
Lemma str_int_shape z :
  ∃ sign ds, list_ascii_of_string (str_int z) = sign ++ ds ∧
             (sign = [] ∨ sign = ["-"%char]) ∧ ds ≠ [] ∧ Forall is_digit ds.
Proof.
  unfold str_int.
  assert (Hu : ∀ d, list_ascii_of_string (NilZero.string_of_uint d) ≠ [] ∧
                    Forall is_digit (list_ascii_of_string (NilZero.string_of_uint d))).
  { intros d. split.
    - by destruct d.
    - destruct d; try apply uint_digits.
      constructor; [unfold is_digit; vm_compute; split; discriminate | constructor]. }
  destruct (Z.to_int z) as [d|d]; simpl.
  - exists [], (list_ascii_of_string (NilZero.string_of_uint d)).
    split_and!; [done | by left | apply Hu..].
  - exists ["-"%char], (list_ascii_of_string (NilZero.string_of_uint d)).
    split_and!; [done | by right | apply Hu..].
Qed.

Lemma str_int_inj z1 z2 : str_int z1 = str_int z2 → z1 = z2.
Proof.
  unfold str_int. intros H. apply DecimalZ.to_int_inj.
  assert (Hnil : ∀ z, Z.to_int z ≠ Decimal.Pos Decimal.Nil ∧
                      Z.to_int z ≠ Decimal.Neg Decimal.Nil).
  { intros [|p|p]; simpl; (split; [|]); try discriminate;
      intros [= Hp]; by apply DecimalPos.Unsigned.to_uint_nonnil in Hp. }
  assert (Heq : Some (Z.to_int z1) = Some (Z.to_int z2)).
  { rewrite <- (NilZero.isi (Z.to_int z1)) by apply Hnil.
    rewrite <- (NilZero.isi (Z.to_int z2)) by apply Hnil. by rewrite H. }
  by injection Heq.
Qed.

Lemma drop_while_all {A : Type} (f : A → bool) (l1 l2 : list A) :
  (∀ x, x ∈ l1 → f x = true) → drop_while f (l1 ++ l2) = drop_while f l2.
Proof.
  induction l1 as [|x l1 IH]; intros Hall; [done|]. simpl.
  rewrite (Hall x) by apply list_elem_of_here.
  apply IH. intros y Hy. by apply Hall, list_elem_of_further.
Qed.

(** [dirname] of a path whose last component holds no slash and follows,
    after one slash, a directory that does not end with a slash. *)
Lemma path_dirname_chars p (dir file : list ascii) c :
  list_ascii_of_string p = dir ++ "/"%char :: file →
  "/"%char ∉ file → last dir = Some c → c ≠ "/"%char →
  path_dirname p = string_of_list_ascii dir.
Proof.
  intros Hp Hfile Hlast Hc. unfold path_dirname. rewrite Hp.
  apply last_Some in Hlast as [dir' ->].
  set (is_sep := λ c0 : ascii, bool_decide (c0 = "/"%char)).
  assert (Hsep : is_sep "/"%char = true) by done.
  assert (Hnsep : is_sep c = false) by (by apply bool_decide_eq_false_2).
  assert (H1 : rev ((dir' ++ [c]) ++ "/"%char :: file) =
               rev file ++ "/"%char :: c :: rev dir').
  { rewrite !rev_app_distr. simpl. by rewrite <- app_assoc. }
  rewrite H1, drop_while_all.
  2:{ intros x Hx%list_elem_of_In%in_rev%list_elem_of_In.
      apply negb_true_iff, bool_decide_eq_false_2. by intros ->. }
  assert (H2 : drop_while (λ c0 : ascii, negb (bool_decide (c0 = "/"%char)))
                 ("/"%char :: c :: rev dir') =
               "/"%char :: c :: rev dir').
  { cbn [drop_while]. fold (is_sep "/"%char). by rewrite Hsep. }
  rewrite H2.
  assert (H3 : rev ("/"%char :: c :: rev dir') = dir' ++ [c; "/"%char]).
  { simpl. rewrite rev_involutive. by rewrite <- app_assoc. }
  rewrite H3.
  assert (H4 : forallb is_sep (dir' ++ [c; "/"%char]) = false).
  { rewrite forallb_app. cbn [forallb]. rewrite Hnsep. apply andb_false_r. }
  rewrite H4.
  assert (H5 : rev (dir' ++ [c; "/"%char]) = "/"%char :: c :: rev dir').
  { by rewrite rev_app_distr. }
  rewrite H5. cbn [drop_while]. rewrite Hsep, Hnsep.
  simpl. by rewrite rev_involutive.
Qed.

Lemma path_join_chars a b :
  String.prefix "/" b = false →
  list_ascii_of_string (path_join a b) =
  (if decide (a = EmptyString) then []
   else if decide (last (list_ascii_of_string a) = Some "/"%char)
        then list_ascii_of_string a
        else list_ascii_of_string a ++ ["/"%char])
  ++ list_ascii_of_string b.
Proof.
  intros Hb. unfold path_join. rewrite Hb.
  repeat case_decide; rewrite ?chars_app; try done.
  by rewrite <- app_assoc.
Qed.

Lemma pos_name_no_slash x : String.prefix "/" ("pos_" +:+ x) = false.
Proof. reflexivity. Qed.

Lemma pos_outdir_chars self pos :
  ∃ l d, list_ascii_of_string (pos_outdir self pos) = l ++ [d] ∧ is_digit d.
Proof.
  unfold pos_outdir. rewrite path_join_chars by apply pos_name_no_slash.
  rewrite chars_app.
  destruct (str_int_shape pos) as (sign & ds & Hs & _ & Hne & Hds).
  destruct (last ds) as [d|] eqn:Hlast; [|by apply last_None in Hlast].
  apply last_Some in Hlast as [ds' ->].
  rewrite Hs. rewrite !app_assoc. eexists. exists d. split; [reflexivity|].
  rewrite Forall_forall in Hds. apply Hds. rewrite elem_of_app. right.
  apply list_elem_of_here.
Qed.

Lemma is_digit_not_slash d : is_digit d → d ≠ "/"%char.
Proof. intros [H _] ->. vm_compute in H. by apply H. Qed.

Lemma path_join_dir_chars dir file :
  String.prefix "/" file = false →
  (∃ l d, list_ascii_of_string dir = l ++ [d] ∧ is_digit d) →
  list_ascii_of_string (path_join dir file) =
  list_ascii_of_string dir ++ "/"%char :: list_ascii_of_string file.
Proof.
  intros Hfile (l & d & Hdir & Hd). rewrite path_join_chars by done.
  rewrite decide_False by (intros ->; by destruct l).
  rewrite decide_False.
  - by rewrite <- app_assoc.
  - rewrite Hdir, last_snoc. intros [= ->]. by apply (is_digit_not_slash "/"%char).
Qed.

Lemma polished_seq_fn_in_dir self pos i :
  path_dirname (units_fn_of (pos_outdir self pos)) = pos_outdir self pos ∧
  polished_seq_fn (units_fn_of (pos_outdir self pos)) i =
    pos_outdir self pos +:+ "/polished_" +:+ str_int i +:+ ".fasta".
Proof.
  pose proof (pos_outdir_chars self pos) as Hdir.
  assert (Hdirname : path_dirname (units_fn_of (pos_outdir self pos)) = pos_outdir self pos).
  { destruct Hdir as (l & d & Hdir & Hd).
    rewrite <- (string_of_list_ascii_of_string (pos_outdir self pos)) at 2.
    apply (path_dirname_chars _ _ (list_ascii_of_string "read_units.fasta") d).
    - unfold units_fn_of. apply path_join_dir_chars; [reflexivity|]. by exists l, d.
    - by_compute.
    - by rewrite Hdir, last_snoc.
    - by apply is_digit_not_slash. }
  split; [exact Hdirname|]. unfold polished_seq_fn. rewrite Hdirname.
  apply chars_inj. rewrite path_join_dir_chars; [|reflexivity|exact Hdir].
  rewrite !chars_app. reflexivity.
Qed.

(** X10: the directory that [run_polishing] hands to the tool with [-o], and
    in which [read_polishing] looks for [polished_<i>.fasta], is the directory
    [export_read_units] made for the position: [dirname] undoes the [join]
    of line 72 for every output directory and every position. *)
Theorem polished_files_in_position_directory self pos i :
  path_dirname (units_fn_of (pos_outdir self pos)) = pos_outdir self pos ∧
  polished_seq_fn (units_fn_of (pos_outdir self pos)) i =
    pos_outdir self pos +:+ "/polished_" +:+ str_int i +:+ ".fasta".
Proof. apply polished_seq_fn_in_dir. Qed.

Lemma path_join_inj a b1 b2 :
  String.prefix "/" b1 = false → String.prefix "/" b2 = false →
  path_join a b1 = path_join a b2 → b1 = b2.
Proof.
  intros H1 H2 Heq. apply chars_inj.
  apply (f_equal list_ascii_of_string) in Heq.
  rewrite !path_join_chars in Heq by done. by apply app_inv_head in Heq.
Qed.

Lemma str_int_head z :
  ∃ c l, list_ascii_of_string (str_int z) = c :: l ∧ (c = "-"%char ∨ is_digit c).
Proof.
  destruct (str_int_shape z) as (sign & ds & -> & Hsign & Hne & Hds).
  destruct ds as [|d ds]; [done|]. apply Forall_cons in Hds as [Hd _].
  destruct Hsign as [->| ->]; simpl.
  - exists d, ds. split; [done | by right].
  - eexists _, _. split; [done | by left].
Qed.

(** X11: the output files do not collide: two positions have different
    directories, two iterations have different final files and different
    compressed final files, and no final file is a compressed final file,
    whatever the output directory is. *)
Theorem output_files_are_distinct self :
  (∀ p q, pos_outdir self p = pos_outdir self q → p = q) ∧
  (∀ i j, final_fn self i = final_fn self j → i = j) ∧
  (∀ i j, final_hpc_fn self i = final_hpc_fn self j → i = j) ∧
  (∀ i j, final_fn self i ≠ final_hpc_fn self j).
Proof.
  split_and!.
  - intros p q H. apply path_join_inj in H; [|reflexivity..].
    apply str_int_inj. by apply (inj (String.app "pos_")) in H.
  - intros i j H. apply path_join_inj in H; [|reflexivity..].
    apply (inj (String.app "final_sequence_")) in H.
    apply (f_equal list_ascii_of_string) in H. rewrite !chars_app in H.
    apply app_inv_tail in H. by apply str_int_inj, chars_inj.
  - intros i j H. apply path_join_inj in H; [|reflexivity..].
    apply (inj (String.app "final_sequence_hpc_")) in H.
    apply (f_equal list_ascii_of_string) in H. rewrite !chars_app in H.
    apply app_inv_tail in H. by apply str_int_inj, chars_inj.
  - intros i j H. apply path_join_inj in H; [|reflexivity..].
    apply (f_equal list_ascii_of_string) in H. rewrite !chars_app in H.
    destruct (str_int_head i) as (c & l & Hi & Hc). rewrite Hi in H.
    change (list_ascii_of_string "final_sequence_hpc_")
      with (list_ascii_of_string "final_sequence_" ++ "h"%char :: list_ascii_of_string "pc_")
      in H.
    rewrite <- app_assoc in H. apply app_inv_head in H.
    rewrite <- !app_comm_cons in H. injection H as -> _.
    destruct Hc as [Hc|[_ Hc]]; [discriminate Hc|].
    vm_compute in Hc. by apply Hc.
Qed.

(** ** The polishing driver *)

Lemma range_split lo p hi :
  lo ≤ p ≤ hi → range lo (hi + 1) = range lo p ++ p :: range (p + 1) (hi + 1).
Proof.
  intros Hp. unfold range.
  replace (hi + 1 - lo) with ((p - lo) + (hi + 1 - p)) by lia.
  rewrite seqZ_app by lia. f_equal.
  rewrite seqZ_cons by lia. f_equal; [lia|]. f_equal; lia.
Qed.

Section polishing_facts.
Variable check_call : list string → result unit.

Lemma run_polishing_over_Ok self fns mx poss :
  (∀ p, p ∈ poss →
        ∃ u m, dict_get fns p = Some (u, m) ∧ check_call (flye_cmd self u m) = Ok tt) →
  run_polishing_over check_call self fns mx poss =
    (poss ≫= polish_events self fns mx, Ok tt).
Proof.
  induction poss as [|p poss IH]; intros Hall; [done|].
  cbn [run_polishing_over]. rewrite bind_cons.
  destruct (Hall p) as (u & m & Hget & Hcc); [apply list_elem_of_here|].
  unfold polish_events at 1. unfold dict_getitem. rewrite Hget.
  rewrite IH by (intros q Hq; apply Hall; by apply list_elem_of_further).
  unfold io_bind, emit, lift. fold (flye_cmd self u m). by rewrite Hcc.
Qed.

Lemma run_polishing_over_stop self fns mx before p after :
  (∀ q, q ∈ before →
        ∃ u m, dict_get fns q = Some (u, m) ∧ check_call (flye_cmd self u m) = Ok tt) →
  (dict_get fns p = None →
   run_polishing_over check_call self fns mx (before ++ p :: after) =
     ((before ≫= polish_events self fns mx) ++
        [Print (str_int p +:+ " " +:+ str_int mx)],
      Raise (KeyError (KInt p)))) ∧
  (∀ u m e, dict_get fns p = Some (u, m) → check_call (flye_cmd self u m) = Raise e →
   run_polishing_over check_call self fns mx (before ++ p :: after) =
     ((before ≫= polish_events self fns mx) ++ polish_events self fns mx p, Raise e)).
Proof.
  induction before as [|q before IH]; intros Hall.
  - split.
    + intros Hget. cbn [app run_polishing_over]. unfold dict_getitem. by rewrite Hget.
    + intros u m e Hget Hcc. cbn [app run_polishing_over].
      unfold polish_events, dict_getitem. rewrite Hget.
      unfold io_bind, emit, lift. fold (flye_cmd self u m). by rewrite Hcc.
  - destruct IH as [IH1 IH2].
    { intros q' Hq'. apply Hall. by apply list_elem_of_further. }
    destruct (Hall q) as (uq & mq & Hq & Hccq); [apply list_elem_of_here|].
    assert (Hstep : ∀ rest,
      run_polishing_over check_call self fns mx (q :: rest) =
      io_bind (polish_events self fns mx q, Ok tt)
              (λ _, run_polishing_over check_call self fns mx rest)).
    { intros rest. cbn [run_polishing_over]. unfold polish_events, dict_getitem.
      rewrite Hq. unfold io_bind, emit, lift. fold (flye_cmd self uq mq).
      rewrite Hccq. by destruct (run_polishing_over check_call self fns mx rest). }
    split.
    + intros Hget. rewrite <- app_comm_cons, Hstep, (IH1 Hget), bind_cons.
      unfold io_bind. by rewrite app_assoc.
    + intros u m e Hget Hcc. rewrite <- app_comm_cons, Hstep, (IH2 u m e Hget Hcc), bind_cons.
      unfold io_bind. by rewrite app_assoc.
Qed.

End polishing_facts.

Lemma run_polishing_all check_call self fns lo hi :
  min_of (dict_keys fns) = Ok lo → max_of (dict_keys fns) = Ok hi →
  (∀ p, lo ≤ p ≤ hi →
        ∃ u m, dict_get fns p = Some (u, m) ∧ check_call (flye_cmd self u m) = Ok tt) →
  run_polishing check_call self fns =
    (range lo (hi + 1) ≫= polish_events self fns hi, Ok tt).
Proof.
  intros Hlo Hhi Hall. unfold run_polishing. rewrite Hlo, Hhi.
  unfold io_bind at 1 2. unfold lift. simpl.
  rewrite run_polishing_over_Ok; [done|].
  intros p Hp%elem_of_range. apply Hall. lia.
Qed.

(** X12: when every position from the smallest to the largest one with
    read units has read units and the tool returns for each of them,
    [run_polishing] launches the tool once per position, in ascending order of
    the positions, with the command of lines 106-111, and raises nothing. *)
Theorem run_polishing_launches_every_position check_call self fns lo hi :
  min_of (dict_keys fns) = Ok lo → max_of (dict_keys fns) = Ok hi →
  (∀ p, lo ≤ p ≤ hi →
        ∃ u m, dict_get fns p = Some (u, m) ∧ check_call (flye_cmd self u m) = Ok tt) →
  run_polishing check_call self fns =
    (range lo (hi + 1) ≫= polish_events self fns hi, Ok tt).
Proof. apply run_polishing_all. Qed.

Lemma run_polishing_launches_every_position_witness :
  run_polishing (λ _, Ok tt) short_read three_filenames =
    (range 0 (2 + 1) ≫= polish_events short_read three_filenames 2, Ok tt).
Proof.
  apply (run_polishing_launches_every_position (λ _, Ok tt) short_read three_filenames 0 2).
  - vm_compute. reflexivity.
  - vm_compute. reflexivity.
  - intros p Hp.
    assert (p = 0 ∨ p = 1 ∨ p = 2) as [->|[->| ->]] by lia; by eexists _, _.
Defined.

Lemma run_polishing_stop check_call self fns lo hi p :
  min_of (dict_keys fns) = Ok lo → max_of (dict_keys fns) = Ok hi →
  lo ≤ p ≤ hi →
  (∀ q, lo ≤ q < p →
        ∃ u m, dict_get fns q = Some (u, m) ∧ check_call (flye_cmd self u m) = Ok tt) →
  (dict_get fns p = None →
   run_polishing check_call self fns =
     ((range lo p ≫= polish_events self fns hi) ++
        [Print (str_int p +:+ " " +:+ str_int hi)],
      Raise (KeyError (KInt p)))) ∧
  (∀ u m e, dict_get fns p = Some (u, m) → check_call (flye_cmd self u m) = Raise e →
   run_polishing check_call self fns =
     ((range lo p ≫= polish_events self fns hi) ++ polish_events self fns hi p,
      Raise e)).
Proof.
  intros Hlo Hhi Hp Hall. unfold run_polishing. rewrite Hlo, Hhi.
  unfold io_bind at 1 2. unfold lift. simpl.
  rewrite (range_split lo p hi) by done.
  destruct (run_polishing_over_stop check_call self fns hi (range lo p) p
              (range (p + 1) (hi + 1))) as [H1 H2].
  { intros q Hq%elem_of_range. by apply Hall. }
  split.
  - intros Hget. by rewrite (H1 Hget).
  - intros u m e Hget Hcc. by rewrite (H2 u m e Hget Hcc).
Qed.

(** X13: [run_polishing] stops at the first position, in ascending order,
    that has no read units or whose command fails: the tool has been launched
    for the positions below it and for that position if it has read units,
    and for no position above it; the exception is [KeyError] with the
    position, or the one of the command. *)
Theorem run_polishing_stops_at_first_failure check_call self fns lo hi p :
  min_of (dict_keys fns) = Ok lo → max_of (dict_keys fns) = Ok hi →
  lo ≤ p ≤ hi →
  (∀ q, lo ≤ q < p →
        ∃ u m, dict_get fns q = Some (u, m) ∧ check_call (flye_cmd self u m) = Ok tt) →
  (dict_get fns p = None →
   run_polishing check_call self fns =
     ((range lo p ≫= polish_events self fns hi) ++
        [Print (str_int p +:+ " " +:+ str_int hi)],
      Raise (KeyError (KInt p)))) ∧
  (∀ u m e, dict_get fns p = Some (u, m) → check_call (flye_cmd self u m) = Raise e →
   run_polishing check_call self fns =
     ((range lo p ≫= polish_events self fns hi) ++ polish_events self fns hi p,
      Raise e)).
Proof. apply run_polishing_stop. Qed.

Lemma run_polishing_stops_at_first_failure_witness :
  run_polishing (λ _, Ok tt) short_read gapped_filenames =
    ((range 0 1 ≫= polish_events short_read gapped_filenames 2) ++
       [Print (str_int 1 +:+ " " +:+ str_int 2)],
     Raise (KeyError (KInt 1))) ∧
  run_polishing fails_at_1 short_read three_filenames =
    ((range 0 1 ≫= polish_events short_read three_filenames 2) ++
       polish_events short_read three_filenames 2 1,
     Raise CalledProcessError).
Proof.
  split.
  - apply (run_polishing_stops_at_first_failure (λ _, Ok tt) short_read
             gapped_filenames 0 2 1).
    + vm_compute. reflexivity.
    + vm_compute. reflexivity.
    + lia.
    + intros q Hq. assert (q = 0) as -> by lia. by eexists _, _.
    + vm_compute. reflexivity.
  - apply (proj2 (run_polishing_stops_at_first_failure fails_at_1 short_read
                    three_filenames 0 2 1 ltac:(vm_compute; reflexivity)
                    ltac:(vm_compute; reflexivity) ltac:(lia)
                    ltac:(intros q Hq; assert (q = 0) as -> by lia;
                          eexists _, _; split; vm_compute; reflexivity))
             "out/pos_1/read_units.fasta" "out/pos_1/median_read_unit.fasta").
    + vm_compute. reflexivity.
    + vm_compute. reflexivity.
Defined.

(** ** The assembler and the reports at the edges *)

Lemma read_polishing_over_keys read_bio_seq fns lo hi iters ps0 f0 finals :
  NoDup (dict_keys f0 ++ iters) →
  read_polishing_over read_bio_seq fns lo hi iters ps0 f0 = Ok finals →
  dict_keys finals = dict_keys f0 ++ iters.
Proof.
  revert ps0 f0. induction iters as [|i iters IH]; intros ps0 f0 Hnd;
    cbn [read_polishing_over].
  - intros [= <-]. by rewrite app_nil_r.
  - destruct (read_polished read_bio_seq i fns ps0) as [ps|]; simpl; [|done].
    destruct (gather ps (range lo (hi + 1))) as [parts|]; simpl; [|done].
    assert (Hi : i ∉ dict_keys f0).
    { apply NoDup_app in Hnd as (_ & Hdisj & _). intros Hin.
      apply (Hdisj i Hin), list_elem_of_here. }
    intros ->%IH.
    + rewrite dict_keys_set_notin by done. by rewrite <- app_assoc.
    + rewrite dict_keys_set_notin by done. by rewrite <- app_assoc.
Qed.

Lemma read_polishing_Ok read_bio_seq self fns lo hi :
  NoDup (dict_keys fns) →
  min_of (dict_keys fns) = Ok lo → max_of (dict_keys fns) = Ok hi →
  (∀ p i, lo ≤ p ≤ hi → 1 ≤ i ≤ p_num_iters (params self) →
          ∃ s, artifact read_bio_seq fns i p s) →
  ∃ finals,
    read_polishing read_bio_seq self fns = Ok finals ∧
    dict_keys finals = range 1 (p_num_iters (params self) + 1).
Proof.
  intros Hnd Hlo Hhi Hall. unfold read_polishing. rewrite Hlo, Hhi. simpl.
  destruct (read_polishing_over read_bio_seq fns lo hi
              (range 1 (p_num_iters (params self) + 1)) [] []) as [finals|e] eqn:H.
  - exists finals. split; [done|].
    apply read_polishing_over_keys in H; [done|]. simpl. apply NoDup_seqZ.
  - exfalso. destruct (decide (1 ≤ p_num_iters (params self))) as [Hn|Hn].
    2:{ unfold range in H. rewrite seqZ_nil in H by lia. done. }
    apply read_polishing_over_Raise in H
      as [(p & Hp%elem_of_range & Hnone & _)|(p & u & m & j & Hj%elem_of_range & Hget & Hr)];
      [| |done|done].
    + destruct (Hall p 1) as (s & u & m & Hget & _); [lia | lia | congruence].
    + assert (Hp : lo ≤ p ≤ hi).
      { apply dict_get_Some in Hget.
        assert (Hk : p ∈ dict_keys fns)
          by (apply list_elem_of_fmap; by exists (p, (u, m))).
        apply min_of_spec in Hlo as [_ Hlo]. apply max_of_spec in Hhi as [_ Hhi].
        split; [by apply Hlo | by apply Hhi]. }
      destruct (Hall p j) as (s & u' & m' & Hget' & Hs); [done | lia |].
      rewrite Hget in Hget'. injection Hget' as <- <-. congruence.
Qed.

(** X14: when no position has two entries and every position from the
    smallest to the largest one with read units has its polished sequence for
    every iteration of [1 .. num_iters], [read_polishing] raises nothing and
    returns one sequence for each iteration, under the keys 1 to [num_iters]
    in this order. *)
Theorem read_polishing_succeeds read_bio_seq self fns lo hi :
  NoDup (dict_keys fns) →
  min_of (dict_keys fns) = Ok lo → max_of (dict_keys fns) = Ok hi →
  (∀ p i, lo ≤ p ≤ hi → 1 ≤ i ≤ p_num_iters (params self) →
          ∃ s, artifact read_bio_seq fns i p s) →
  ∃ finals,
    read_polishing read_bio_seq self fns = Ok finals ∧
    dict_keys finals = range 1 (p_num_iters (params self) + 1).
Proof. apply read_polishing_Ok. Qed.

Lemma read_polishing_succeeds_witness :
  ∃ finals,
    read_polishing two_positions_tree short_read short_read_filenames = Ok finals ∧
    dict_keys finals = range 1 (p_num_iters (params short_read) + 1).
Proof.
  apply (read_polishing_succeeds two_positions_tree short_read short_read_filenames 0 1).
  - by_compute.
  - vm_compute. reflexivity.
  - vm_compute. reflexivity.
  - intros p i Hp Hi. unfold artifact.
    assert (p = 0 ∨ p = 1) as [->| ->] by lia;
      (assert (i = 1 ∨ i = 2) as [->| ->]
         by (change (p_num_iters (params short_read)) with 2 in Hi; lia));
      eexists _, _, _; split; vm_compute; reflexivity.
Defined.

(** X15: with no iteration ([num_iters <= 0]) the assembler reads nothing
    and returns an empty table as soon as there are read units, and
    [export_results] writes nothing; with at most one iteration the report
    file is opened and left empty, whatever the sequences are. *)
Theorem few_iterations read_bio_seq edlib_align self fns finals :
  (p_num_iters (params self) ≤ 0 → fns ≠ [] →
   read_polishing read_bio_seq self fns = Ok []) ∧
  (p_num_iters (params self) ≤ 0 → export_results self finals = ([], Ok tt)) ∧
  (p_num_iters (params self) ≤ 1 →
   compare_polished_sequences edlib_align self finals =
     ([OpenWrite (report_fn self)], Ok tt)).
Proof.
  split_and!.
  - intros Hn Hne. unfold read_polishing.
    destruct fns as [|[k v] fns]; [done|]. cbn [dict_keys fmap list_fmap min_of max_of fst].
    simpl. unfold range. by rewrite seqZ_nil by lia.
  - intros Hn. unfold export_results, range. by rewrite seqZ_nil by lia.
  - intros Hn. unfold compare_polished_sequences, range. by rewrite seqZ_nil by lia.
Qed.

Lemma few_iterations_witness :
  read_polishing two_positions_tree (sample_polisher two_units [("r1", Some 0)] 0 2 0)
    short_read_filenames = Ok [] ∧
  export_results (sample_polisher two_units [("r1", Some 0)] 0 2 0) two_positions_finals =
    ([], Ok tt) ∧
  compare_polished_sequences sample_align
    (sample_polisher two_units [("r1", Some 0)] 0 2 0) two_positions_finals =
    ([OpenWrite (report_fn (sample_polisher two_units [("r1", Some 0)] 0 2 0))], Ok tt).
Proof.
  destruct (few_iterations two_positions_tree sample_align
              (sample_polisher two_units [("r1", Some 0)] 0 2 0)
              short_read_filenames two_positions_finals) as (H1 & H2 & H3).
  split_and!.
  - apply H1; [vm_compute; discriminate | discriminate].
  - apply H2. vm_compute. discriminate.
  - apply H3. vm_compute. discriminate.
Defined.

(** ** The whole run *)

Lemma run_from_pool read_bio_seq check_call edlib_align self d tr fns :
  map_pos2read self = Ok d → export_read_units self d = (tr, Ok fns) →
  run read_bio_seq check_call edlib_align self =
  io_bind (tr, Ok tt) (λ _,
    do! _ := run_polishing check_call self fns in
    do! final_sequences := lift (read_polishing read_bio_seq self fns) in
    do! _ := compare_polished_sequences edlib_align self final_sequences in
    export_results self final_sequences).
Proof.
  intros Hd Hfns. unfold run. rewrite Hd. unfold lift at 1. unfold io_bind at 1.
  rewrite Hfns.
  match goal with
  | |- (let (t', r) := ?X in _) = ?Y => change Y with X; by destruct X
  end.
Qed.

(** X16: when no occurrence is pooled, as with [max_pos < min_pos], [run]
    writes nothing and launches nothing: it raises the [ValueError] of [min]
    on an empty sequence (line 100), unless the resolver itself has raised. *)
Theorem run_on_empty_pool read_bio_seq check_call edlib_align self :
  (map_pos2read self = Ok [] →
   run read_bio_seq check_call edlib_align self = ([], Raise ValueError)) ∧
  (max_pos self < min_pos self →
   run read_bio_seq check_call edlib_align self = ([], Raise ValueError) ∨
   ∃ r pos, (r, Some pos) ∈ read_placement self ∧ motif_alignments self !! r = None ∧
            run read_bio_seq check_call edlib_align self =
              ([], Raise (KeyError (KStr r)))).
Proof.
  assert (Hempty : map_pos2read self = Ok [] →
            run read_bio_seq check_call edlib_align self = ([], Raise ValueError)).
  { intros Hd. by rewrite (run_from_pool _ _ _ self [] [] [] Hd). }
  split; [done|]. intros Hinv.
  destruct (map_pos2read_from_outcome self (read_placement self) [])
    as [(d & Hd & Hnil)|(r & pos & Hin & _ & Hnone & Hr)].
  - left. apply Hempty. unfold map_pos2read. by rewrite Hd, (Hnil Hinv).
  - right. exists r, pos. split_and!; [done | done |].
    unfold run. fold (map_pos2read self) in Hr. by rewrite Hr.
Qed.

Lemma run_on_empty_pool_witness :
  run two_positions_tree (λ _, Ok tt) sample_align inverted_window =
    ([], Raise ValueError).
Proof.
  apply (proj1 (run_on_empty_pool two_positions_tree (λ _, Ok tt) sample_align
                  inverted_window)).
  vm_compute. reflexivity.
Defined.

Lemma export_filenames_of_pool self d :
  map_pos2read self = Ok d →
  ∃ tr fns,
    export_read_units self d = (tr, Ok fns) ∧ NoDup (dict_keys fns) ∧
    dict_keys fns = dict_keys d ∧
    ∀ k, dict_get fns k =
         if decide (k ∈ dict_keys d)
         then Some (units_fn_of (pos_outdir self k),
                    median_read_unit_fn_of (pos_outdir self k))
         else None.
Proof.
  intros Hd. destruct (export_read_units_total self d Hd) as (tr & fns & Heq & Hnd & Hget).
  exists tr, fns. split_and!; try done.
  destruct (export_read_units_over_keys self d (dict_keys d) [] tr fns) as [Hkeys _];
    [simpl; by eapply map_pos2read_NoDup | done | done].
Qed.

(** X17: in [run], a position without occurrence between two pooled
    positions is met by [run_polishing], not by the assembler: once the read
    units are written and the tool has run for the positions below it, [run]
    raises [KeyError] with that position; no polished sequence is read, no
    report is opened and no final sequence is written. *)
Theorem run_stops_at_unpooled_position read_bio_seq check_call edlib_align self d lo hi p :
  map_pos2read self = Ok d →
  min_of (dict_keys d) = Ok lo → max_of (dict_keys d) = Ok hi →
  lo ≤ p ≤ hi → p ∉ dict_keys d →
  (∀ q, lo ≤ q < p →
        q ∈ dict_keys d ∧
        check_call (flye_cmd self (units_fn_of (pos_outdir self q))
                      (median_read_unit_fn_of (pos_outdir self q))) = Ok tt) →
  ∃ tr fns,
    export_read_units self d = (tr, Ok fns) ∧
    run read_bio_seq check_call edlib_align self =
      (tr ++ (range lo p ≫= polish_events self fns hi) ++
         [Print (str_int p +:+ " " +:+ str_int hi)],
       Raise (KeyError (KInt p))).
Proof.
  intros Hd Hlo Hhi Hp Hnot Hbelow.
  destruct (export_filenames_of_pool self d Hd) as (tr & fns & Hfns & Hnd & Hkeys & Hget).
  exists tr, fns. split; [done|].
  rewrite (run_from_pool _ _ _ self d tr fns Hd Hfns). rewrite <- Hkeys in Hlo, Hhi.
  destruct (run_polishing_stop check_call self fns lo hi p Hlo Hhi Hp) as [Hstop _].
  { intros q Hq. destruct (Hbelow q Hq) as [Hin Hcc].
    eexists _, _. split; [|exact Hcc]. rewrite Hget. by rewrite decide_True. }
  rewrite Hstop by (rewrite Hget; by rewrite decide_False). done.
Qed.

Lemma run_stops_at_unpooled_position_witness :
  ∃ tr fns,
    export_read_units gapped_reads gapped_pool = (tr, Ok fns) ∧
    run gapped_tree (λ _, Ok tt) sample_align gapped_reads =
      (tr ++ (range 0 1 ≫= polish_events gapped_reads fns 2) ++
         [Print (str_int 1 +:+ " " +:+ str_int 2)],
       Raise (KeyError (KInt 1))).
Proof.
  apply (run_stops_at_unpooled_position gapped_tree (λ _, Ok tt) sample_align
           gapped_reads gapped_pool 0 2 1).
  - vm_compute. reflexivity.
  - vm_compute. reflexivity.
  - vm_compute. reflexivity.
  - lia.
  - by_compute.
  - intros q Hq. assert (q = 0) as -> by lia. split; [by_compute | done].
Defined.

Lemma read_polishing_finals_Some read_bio_seq self fns finals :
  NoDup (dict_keys fns) → read_polishing read_bio_seq self fns = Ok finals →
  ∀ i, 1 ≤ i ≤ p_num_iters (params self) → is_Some (dict_get finals i).
Proof.
  intros Hnd H i Hi. unfold read_polishing in H.
  destruct (min_of (dict_keys fns)) as [lo|]; simpl in H; [|done].
  destruct (max_of (dict_keys fns)) as [hi|]; simpl in H; [|done].
  destruct (read_polishing_over_spec read_bio_seq fns lo hi _ [] [] finals Hnd
              (NoDup_seqZ _ _) (λ pos _, eq_refl) H i) as [Hin _].
  destruct Hin as (parts & _ & ->); [apply elem_of_range; lia | by eexists].
Qed.

Lemma reports_Ok edlib_align self finals :
  (∀ i, 1 ≤ i ≤ p_num_iters (params self) → is_Some (dict_get finals i)) →
  (compare_polished_sequences edlib_align self finals).2 = Ok tt ∧
  (export_results self finals).2 = Ok tt.
Proof.
  intros Hall. split.
  - unfold compare_polished_sequences. rewrite compare_over_Ok; [done|].
    intros i Hi%elem_of_range. split; apply Hall; lia.
  - unfold export_results. rewrite export_results_over_Ok; [done|].
    intros i Hi%elem_of_range. apply Hall. lia.
Qed.

(** X18: [run] returns when the resolver returns, every position from the
    smallest to the largest pooled one is pooled, the tool returns for each
    of them, and each of their directories holds [polished_<i>.fasta] for
    every iteration.  What it leaves is, in this order: the read units of the
    positions, one launch of the tool per position in ascending order, the
    report, and the final sequences. *)
Theorem run_succeeds read_bio_seq check_call edlib_align self d lo hi :
  map_pos2read self = Ok d →
  min_of (dict_keys d) = Ok lo → max_of (dict_keys d) = Ok hi →
  (∀ p, lo ≤ p ≤ hi →
        p ∈ dict_keys d ∧
        check_call (flye_cmd self (units_fn_of (pos_outdir self p))
                      (median_read_unit_fn_of (pos_outdir self p))) = Ok tt ∧
        ∀ i, 1 ≤ i ≤ p_num_iters (params self) →
             ∃ s, read_bio_seq (pos_outdir self p +:+ "/polished_" +:+ str_int i
                                +:+ ".fasta") = Ok s) →
  ∃ tr fns finals,
    export_read_units self d = (tr, Ok fns) ∧
    read_polishing read_bio_seq self fns = Ok finals ∧
    run read_bio_seq check_call edlib_align self =
      (tr ++ (range lo (hi + 1) ≫= polish_events self fns hi) ++
       (compare_polished_sequences edlib_align self finals).1 ++
       (export_results self finals).1,
       Ok tt).
Proof.
  intros Hd Hlo Hhi Hall.
  destruct (export_filenames_of_pool self d Hd) as (tr & fns & Hfns & Hnd & Hkeys & Hget).
  rewrite <- Hkeys in Hlo, Hhi.
  assert (Hfile : ∀ p, lo ≤ p ≤ hi →
            dict_get fns p = Some (units_fn_of (pos_outdir self p),
                                   median_read_unit_fn_of (pos_outdir self p))).
  { intros p Hp. rewrite Hget. rewrite decide_True; [done | by apply Hall]. }
  destruct (read_polishing_Ok read_bio_seq self fns lo hi Hnd Hlo Hhi)
    as (finals & Hfinals & _).
  { intros p i Hp Hi. destruct (Hall p Hp) as (_ & _ & Hread).
    destruct (Hread i Hi) as [s Hs]. exists s. eexists _, _. split; [by apply Hfile|].
    by rewrite (proj2 (polished_seq_fn_in_dir self p i)). }
  exists tr, fns, finals. split_and!; [done | done |].
  rewrite (run_from_pool _ _ _ self d tr fns Hd Hfns).
  rewrite (run_polishing_all check_call self fns lo hi Hlo Hhi).
  2:{ intros p Hp. eexists _, _. split; [by apply Hfile | by apply Hall]. }
  destruct (reports_Ok edlib_align self finals) as [Hc He].
  { by apply (read_polishing_finals_Some read_bio_seq self fns). }
  unfold io_bind, lift. rewrite Hfinals.
  destruct (compare_polished_sequences edlib_align self finals) as [t3 r3].
  destruct (export_results self finals) as [t4 r4]. simpl in *. by subst r3 r4.
Qed.

Lemma run_succeeds_witness :
  ∃ tr fns finals,
    export_read_units short_read short_read_pool = (tr, Ok fns) ∧
    read_polishing two_positions_tree short_read fns = Ok finals ∧
    run two_positions_tree (λ _, Ok tt) sample_align short_read =
      (tr ++ (range 0 (1 + 1) ≫= polish_events short_read fns 1) ++
       (compare_polished_sequences sample_align short_read finals).1 ++
       (export_results short_read finals).1,
       Ok tt).
Proof.
  apply (run_succeeds two_positions_tree (λ _, Ok tt) sample_align short_read
           short_read_pool 0 1).
  - vm_compute. reflexivity.
  - vm_compute. reflexivity.
  - vm_compute. reflexivity.
  - intros p Hp. assert (p = 0 ∨ p = 1) as [->| ->] by lia.
    + split_and!; [by_compute | done |]. intros i Hi.
      assert (i = 1 ∨ i = 2) as [->| ->]
        by (change (p_num_iters (params short_read)) with 2 in Hi; lia);
        eexists; vm_compute; reflexivity.
    + split_and!; [by_compute | done |]. intros i Hi.
      assert (i = 1 ∨ i = 2) as [->| ->]
        by (change (p_num_iters (params short_read)) with 2 in Hi; lia);
        eexists; vm_compute; reflexivity.
Defined.

(** ** The text of the placement file *)

Lemma strip_with_spec f pre body suf :
  (∀ c, c ∈ pre → f c = true) → (∀ c, c ∈ suf → f c = true) →
  (∀ c, head body = Some c → f c = false) →
  (∀ c, last body = Some c → f c = false) →
  strip_with f (pre ++ body ++ suf) = body.
Proof.
  intros Hpre Hsuf Hhd Hlast. unfold strip_with.
  rewrite drop_while_all by done.
  destruct body as [|x b].
  - rewrite app_nil_l, <- (app_nil_r suf), drop_while_all by done. done.
  - change ((x :: b) ++ suf) with (x :: (b ++ suf)).
    cbn [drop_while]. rewrite (Hhd x) by done.
    change (x :: (b ++ suf)) with ((x :: b) ++ suf). rewrite reverse_app.
    rewrite drop_while_all by (intros c Hc; rewrite elem_of_reverse in Hc; by apply Hsuf).
    destruct (reverse (x :: b)) as [|y r] eqn:Hr.
    + apply (f_equal length) in Hr. rewrite length_reverse in Hr. done.
    + cbn [drop_while]. rewrite (Hlast y).
      * by rewrite <- Hr, reverse_involutive.
      * by rewrite <- head_reverse, Hr.
Qed.

Lemma chars_of_list l : list_ascii_of_string (string_of_list_ascii l) = l.
Proof. apply list_ascii_of_string_of_list_ascii. Qed.

Lemma split_no_sep sep s : sep ∉ list_ascii_of_string s → split sep s = [s].
Proof.
  induction s as [|c s IH]; [done|]. cbn [list_ascii_of_string split].
  intros [Hne Hnin]%not_elem_of_cons.
  rewrite decide_False by done. by rewrite IH.
Qed.

Lemma split_at_sep sep w rest :
  sep ∉ list_ascii_of_string w →
  split sep (w +:+ String sep rest) = w :: split sep rest.
Proof.
  induction w as [|c w IH].
  - intros _. change (EmptyString +:+ String sep rest) with (String sep rest).
    cbn [split]. by rewrite decide_True.
  - cbn [list_ascii_of_string]. intros [Hne Hnin]%not_elem_of_cons.
    change (String c w +:+ String sep rest) with (String c (w +:+ String sep rest)).
    cbn [split]. rewrite decide_False by done.
    by rewrite IH.
Qed.

Lemma split_with_sep sep s :
  sep ∈ list_ascii_of_string s → ∃ w1 w2 ws, split sep s = w1 :: w2 :: ws.
Proof.
  induction s as [|c s IH]; cbn [list_ascii_of_string split].
  - intros H. by apply elem_of_nil in H.
  - intros H. destruct (decide (c = sep)) as [->|Hne].
    + destruct s as [|c' s]; [by eexists _, _, _|].
      cbn [split]. destruct (decide (c' = sep)); [by eexists _, _, _|].
      destruct (split sep s); by eexists _, _, _.
    + apply elem_of_cons in H as [->|H]; [done|].
      destruct (IH H) as (w1 & w2 & ws & ->). by eexists _, _, _.
Qed.

Lemma digit_not_space c : is_digit c → is_space c = false ∧ is_int_space c = false.
Proof.
  unfold is_digit, is_space, is_int_space. cbv zeta. intros [H1 H2].
  split; apply bool_decide_eq_false; lia.
Qed.

Lemma literal_digits_all b ds :
  Forall is_digit ds → ds ≠ [] ∨ b = true → literal_digits b ds = Some ds.
Proof.
  intros H. revert b. induction H as [|c ds Hc Hds IH]; intros b Hb.
  - by destruct Hb as [?| ->].
  - cbn [literal_digits]. rewrite bool_decide_eq_true_2 by exact Hc.
    rewrite IH by (by right). done.
Qed.

Lemma digits_value_uint d r acc :
  acc = Z.of_N (DecimalPos.Unsigned.of_lu r) →
  foldl (λ acc c, 10 * acc + (Z.of_N (N_of_ascii c) - 48)) acc
    (list_ascii_of_string (NilEmpty.string_of_uint d)) =
  Z.of_N (DecimalPos.Unsigned.of_lu (Decimal.revapp d r)).
Proof.
  revert r acc.
  induction d; intros r acc ->;
    cbn [NilEmpty.string_of_uint list_ascii_of_string foldl Decimal.revapp]; [done|..];
    apply IHd; cbn [DecimalPos.Unsigned.of_lu]; cbn; lia.
Qed.

(** The characters of [str(z)]: a minus sign if [z] is negative, then the
    digits of its absolute value. *)
Lemma str_int_digits z :
  ∃ ds, list_ascii_of_string (str_int z) = (if decide (z < 0) then ["-"%char] else []) ++ ds ∧
        ds ≠ [] ∧ Forall is_digit ds ∧ digits_value ds = Z.abs z.
Proof.
  assert (Hpos : ∀ p,
    list_ascii_of_string (NilZero.string_of_uint (Pos.to_uint p)) ≠ [] ∧
    Forall is_digit (list_ascii_of_string (NilZero.string_of_uint (Pos.to_uint p))) ∧
    digits_value (list_ascii_of_string (NilZero.string_of_uint (Pos.to_uint p))) = Z.pos p).
  { intros p. pose proof (DecimalPos.Unsigned.to_uint_nonnil p) as Hnil.
    assert (Heq : NilZero.string_of_uint (Pos.to_uint p) =
                  NilEmpty.string_of_uint (Pos.to_uint p)) by (by destruct (Pos.to_uint p)).
    rewrite Heq. split_and!.
    - by destruct (Pos.to_uint p).
    - apply uint_digits.
    - unfold digits_value.
      rewrite (digits_value_uint _ Decimal.Nil) by done.
      change (Decimal.revapp (Pos.to_uint p) Decimal.Nil) with (Decimal.rev (Pos.to_uint p)).
      by rewrite <- DecimalPos.Unsigned.of_uint_alt, DecimalPos.Unsigned.of_to. }
  unfold str_int. destruct z as [|p|p]; cbn [Z.to_int NilZero.string_of_int].
  - exists ["0"%char]. rewrite decide_False by lia.
    split_and!; [done | done | | done].
    constructor; [unfold is_digit; vm_compute; split; discriminate | constructor].
  - exists (list_ascii_of_string (NilZero.string_of_uint (Pos.to_uint p))).
    rewrite decide_False by lia. destruct (Hpos p) as (? & ? & ?). done.
  - exists (list_ascii_of_string (NilZero.string_of_uint (Pos.to_uint p))).
    rewrite decide_True by lia. destruct (Hpos p) as (? & ? & ?). done.
Qed.

Lemma Forall_last {A : Type} (P : A → Prop) (l : list A) x :
  Forall P l → last l = Some x → P x.
Proof.
  intros Hall Hlast. apply last_Some in Hlast as [l' ->].
  rewrite Forall_app, Forall_singleton in Hall. by destruct Hall.
Qed.

Lemma Forall_head {A : Type} (P : A → Prop) (l : list A) x :
  Forall P l → head l = Some x → P x.
Proof.
  intros Hall Hhd. destruct l; [done|]. injection Hhd as ->.
  rewrite Forall_cons in Hall. by destruct Hall.
Qed.

Lemma strip_with_id f body :
  (∀ c, head body = Some c → f c = false) →
  (∀ c, last body = Some c → f c = false) →
  strip_with f body = body.
Proof.
  intros Hhd Hlast.
  pose proof (strip_with_spec f [] body []) as H.
  rewrite app_nil_l, app_nil_r in H. apply H; try done; intros c Hc; by apply elem_of_nil in Hc.
Qed.

(** [int(str(z)) = z]. *)
Lemma py_int_str_int z : py_int (str_int z) = Ok z.
Proof.
  destruct (str_int_digits z) as (ds & Hchars & Hne & Hdig & Hval).
  assert (Hminus : is_int_space "-" = false) by (vm_compute; reflexivity).
  unfold py_int. rewrite strip_with_id, Hchars.
  - case_decide as Hz.
    + cbn [app]. rewrite decide_True by (by left).
      rewrite literal_digits_all by (done || by left).
      rewrite decide_True by done. f_equal. lia.
    + cbn [app]. destruct ds as [|c b]; [done|].
      assert (Hc : is_digit c) by (by apply (Forall_head _ (c :: b))).
      assert (Hnm : c ≠ "-"%char) by (intros ->; destruct Hc as [Hc _]; by vm_compute in Hc).
      assert (Hnp : c ≠ "+"%char) by (intros ->; destruct Hc as [Hc _]; by vm_compute in Hc).
      rewrite decide_False by (by intros [?|?]).
      rewrite literal_digits_all by (done || by left).
      rewrite decide_False by done. f_equal. lia.
  - rewrite Hchars. intros c Hc. case_decide.
    + by injection Hc as <-.
    + by apply digit_not_space, (Forall_head _ ds).
  - rewrite Hchars. intros c Hc. rewrite last_app in Hc.
    destruct (last ds) as [d|] eqn:Hlast.
    + injection Hc as ->. by apply digit_not_space, (Forall_last _ ds).
    + by apply last_None in Hlast.
Qed.

(** The position field holds no space and ends in a character that is no
    white space. *)
Lemma position_field_chars p :
  (" "%char ∉ list_ascii_of_string (position_field p)) ∧
  (∃ c, last (list_ascii_of_string (position_field p)) = Some c ∧ is_space c = false).
Proof.
  destruct p as [z|]; cbn [position_field].
  - destruct (str_int_digits z) as (ds & Hchars & Hne & Hdig & _). rewrite Hchars. split.
    + rewrite not_elem_of_app. split.
      * case_decide; [|apply not_elem_of_nil]. by intros [=]%list_elem_of_singleton.
      * intros Hin. rewrite Forall_forall in Hdig. apply Hdig in Hin.
        destruct Hin as [Hin _]. by vm_compute in Hin.
    + rewrite last_app. destruct (last ds) as [d|] eqn:Hlast; [|by apply last_None in Hlast].
      exists d. split; [done|]. by apply digit_not_space, (Forall_last _ ds).
  - split; [by_compute|]. exists "e"%char. split; vm_compute; reflexivity.
Qed.

Lemma str_int_not_None z : str_int z ≠ "None".
Proof.
  intros H. destruct (str_int_digits z) as (ds & Hchars & Hne & Hdig & _).
  rewrite H in Hchars. cbn in Hchars. case_decide; [done|].
  destruct ds as [|c ds]; [done|]. injection Hchars as <- _.
  apply (Forall_head _ _ "N"%char) in Hdig; [|done].
  destruct Hdig as [_ Hdig]. by vm_compute in Hdig.
Qed.

Lemma strip_placement pre suf r_id p :
  is_blank pre → is_blank suf → is_word r_id →
  strip (pre +:+ r_id +:+ " " +:+ position_field p +:+ suf) =
    r_id +:+ String " " (position_field p).
Proof.
  intros Hpre Hsuf [Hne Hword].
  destruct (position_field_chars p) as [_ (e & Hlast & He)].
  unfold strip. apply chars_inj. rewrite chars_of_list, !chars_app.
  change (list_ascii_of_string " ") with [" "%char].
  cbn [list_ascii_of_string].
  replace (list_ascii_of_string pre ++ list_ascii_of_string r_id ++ [" "%char] ++
           list_ascii_of_string (position_field p) ++ list_ascii_of_string suf)
    with (list_ascii_of_string pre ++
          (list_ascii_of_string r_id ++ " "%char :: list_ascii_of_string (position_field p)) ++
          list_ascii_of_string suf)
    by (by rewrite <- !app_assoc).
  apply strip_with_spec.
  - intros c Hc. unfold is_blank in Hpre. rewrite Forall_forall in Hpre. by apply Hpre.
  - intros c Hc. unfold is_blank in Hsuf. rewrite Forall_forall in Hsuf. by apply Hsuf.
  - intros c Hc. destruct r_id as [|c' r]; [done|]. injection Hc as <-.
    by apply (Forall_head _ _ c') in Hword.
  - intros c Hc. rewrite last_app, last_cons, Hlast in Hc. by injection Hc as <-.
Qed.

(** A line made of a word, a space and a position field, with any white
    space around it, is read as the word and the position. *)
Lemma parse_line_placement pre suf r_id p :
  is_blank pre → is_blank suf → is_word r_id →
  parse_line (pre +:+ r_id +:+ " " +:+ position_field p +:+ suf) = Ok (r_id, p).
Proof.
  intros Hpre Hsuf Hword. unfold parse_line.
  rewrite strip_placement by done.
  destruct (position_field_chars p) as [Hnsp _].
  rewrite split_at_sep; [rewrite split_no_sep by done|].
  - change (list_getitem [r_id; position_field p] 0) with (Ok r_id).
    change (list_getitem [r_id; position_field p] 1) with (Ok (position_field p)).
    cbn [result_bind]. destruct p as [z|]; cbn [position_field].
    + rewrite decide_False by apply str_int_not_None.
      by rewrite py_int_str_int.
    + by rewrite decide_True.
  - destruct Hword as [_ Hword]. rewrite Forall_forall in Hword.
    intros Hin. apply Hword in Hin. by vm_compute in Hin.
Qed.

Lemma py_int_Raise s e : py_int s = Raise e → e = ValueError.
Proof.
  unfold py_int. destruct (strip_with _ _); [by intros [= <-]|].
  destruct (literal_digits _ _); [done | by intros [= <-]].
Qed.

Lemma parse_line_Raise line :
  (parse_line line = Raise IndexError ↔ " "%char ∉ list_ascii_of_string (strip line)) ∧
  (∀ e, parse_line line = Raise e → e = IndexError ∨ e = ValueError).
Proof.
  unfold parse_line.
  destruct (decide (" "%char ∈ list_ascii_of_string (strip line))) as [Hin|Hnin].
  - destruct (split_with_sep _ _ Hin) as (w1 & w2 & ws & ->).
    change (list_getitem (w1 :: w2 :: ws) 0) with (Ok w1).
    change (list_getitem (w1 :: w2 :: ws) 1) with (Ok w2).
    cbn [result_bind]. case_decide; [done|].
    destruct (py_int w2) as [z|e0] eqn:Hp; cbn [result_bind]; [done|].
    apply py_int_Raise in Hp as ->.
    split; [done | intros e [= <-]; by right].
  - rewrite split_no_sep by done.
    change (list_getitem [strip line] 0) with (Ok (strip line)).
    change (list_getitem [strip line] 1) with (Raise (A := string) IndexError).
    cbn [result_bind]. split; [done | intros e [= <-]; by left].
Qed.

(** X19: a line that holds a read identifier without white space, one space
    and the position, written as [None] or as a decimal number, is read as
    this identifier and this position, whatever white space (the line end
    included) stands before and after them. *)
Theorem placement_line_is_read_back pre suf r_id p :
  is_blank pre → is_blank suf → is_word r_id →
  parse_line (pre +:+ r_id +:+ " " +:+ position_field p +:+ suf) = Ok (r_id, p).
Proof. apply parse_line_placement. Qed.

Lemma placement_line_is_read_back_witness :
  parse_line ("  " +:+ "r1" +:+ " " +:+ position_field (Some (-7)) +:+ newline) =
    Ok ("r1", Some (-7)).
Proof.
  apply (placement_line_is_read_back "  " newline "r1" (Some (-7))).
  - unfold is_blank. by_compute.
  - unfold is_blank. by_compute.
  - unfold is_word. split; [done | by_compute].
Defined.

(** X20: a line of the placement file fails with [IndexError] exactly when,
    once stripped, it holds no space (a blank line, a line of one word); any
    other failure of a line is the [ValueError] of [int], and a line raises
    nothing else. *)
Theorem parse_line_errors line :
  (parse_line line = Raise IndexError ↔ " "%char ∉ list_ascii_of_string (strip line)) ∧
  (∀ e, parse_line line = Raise e → e = IndexError ∨ e = ValueError).
Proof. apply parse_line_Raise. Qed.

Lemma parse_line_errors_witness : parse_line newline = Raise IndexError.
Proof. apply (proj1 (parse_line_errors newline)). by_compute. Defined.

Lemma read_lines_Ok lines toks pos :
  Forall2 (λ line t, parse_line line = Ok t) lines toks →
  read_lines lines pos = Ok (foldl (λ pos line, dict_set pos line.1 line.2) pos toks).
Proof.
  intros H. revert pos. induction H as [|line t lines toks Hp _ IH]; intros pos; [done|].
  cbn [read_lines foldl]. rewrite Hp. cbn [result_bind]. apply IH.
Qed.

Lemma read_lines_Raise l1 line l2 pos e :
  Forall (λ l, ∃ t, parse_line l = Ok t) l1 → parse_line line = Raise e →
  read_lines (l1 ++ line :: l2) pos = Raise e.
Proof.
  intros H He. revert pos. induction H as [|l l1 [t Ht] _ IH]; intros pos; cbn [app read_lines].
  - by rewrite He.
  - rewrite Ht. cbn [result_bind]. apply IH.
Qed.

Lemma parse_lines_cases lines :
  (∃ toks, Forall2 (λ line t, parse_line line = Ok t) lines toks) ∨
  (∃ l1 line l2 e, lines = l1 ++ line :: l2 ∧
     Forall (λ l, ∃ t, parse_line l = Ok t) l1 ∧ parse_line line = Raise e).
Proof.
  induction lines as [|line lines IH].
  - left. exists []. constructor.
  - destruct (parse_line line) as [t|e] eqn:Hp.
    + destruct IH as [(toks & H)|(l1 & l & l2 & e & -> & Hall & He)].
      * left. exists (t :: toks). by constructor.
      * right. exists (line :: l1), l, l2, e.
        split_and!; [done | constructor; [by exists t | done] | done].
    + right. exists [], line, lines, e. split_and!; [done | constructor | done].
Qed.

(** X21: [read_reported_positions] returns exactly when every line of the
    file can be read, and then returns the table built from the lines read,
    a later line overwriting an earlier one of the same read; otherwise it
    raises the exception of the first line that cannot be read, an
    [IndexError] or a [ValueError], whatever the lines after it are. *)
Theorem read_reported_positions_text_outcome lines :
  (∃ toks, Forall2 (λ line t, parse_line line = Ok t) lines toks ∧
     read_reported_positions_text lines = Ok (read_reported_positions toks)) ∨
  (∃ l1 line l2 e, lines = l1 ++ line :: l2 ∧
     Forall (λ l, ∃ t, parse_line l = Ok t) l1 ∧ parse_line line = Raise e ∧
     (e = IndexError ∨ e = ValueError) ∧
     read_reported_positions_text lines = Raise e).
Proof.
  destruct (parse_lines_cases lines) as [(toks & H)|(l1 & line & l2 & e & -> & Hall & He)].
  - left. exists toks. split; [done|]. by apply read_lines_Ok.
  - right. exists l1, line, l2, e. split_and!; [done | done | done | |].
    + by apply (proj2 (parse_line_Raise line)).
    + by apply read_lines_Raise.
Qed.

Lemma dict_set_notin {K V : Type} `{!EqDecision K} (d : list (K * V)) k v :
  k ∉ dict_keys d → dict_set d k v = d ++ [(k, v)].
Proof.
  unfold dict_keys. induction d as [|[k' v'] d IH]; csimpl; [done|].
  intros [Hne Hnin]%not_elem_of_cons.
  rewrite decide_False by done. by rewrite IH.
Qed.

Lemma read_table_back (pos d : list (string * option Z)) :
  NoDup (dict_keys (pos ++ d)) →
  foldl (λ pos line, dict_set pos line.1 line.2) pos d = pos ++ d.
Proof.
  revert pos. induction d as [|[k v] d IH]; intros pos Hnd; cbn [foldl].
  - by rewrite app_nil_r.
  - cbn [fst snd]. unfold dict_keys in Hnd. rewrite fmap_app in Hnd.
    apply NoDup_app in Hnd as (Hpos & Hdisj & Hd).
    rewrite dict_set_notin.
    + rewrite IH; [by rewrite <- app_assoc|].
      unfold dict_keys. rewrite !fmap_app. csimpl. rewrite <- app_assoc.
      apply NoDup_app. split_and!; [done | | done]. intros x Hx. by apply Hdisj.
    + intros Hin. apply (Hdisj k Hin). csimpl. apply list_elem_of_here.
Qed.

Lemma parse_placement_line entry :
  is_word entry.1 → parse_line (placement_line entry) = Ok entry.
Proof.
  intros Hword. destruct entry as [r p]. unfold placement_line. cbn [fst snd] in *.
  apply (parse_line_placement EmptyString newline r p); [| |done].
  - constructor.
  - unfold is_blank. by_compute.
Qed.

Lemma read_placement_lines d :
  Forall (λ entry, is_word entry.1) d →
  read_reported_positions_text (placement_line <$> d) = Ok (read_reported_positions d).
Proof.
  intros Hall. apply read_lines_Ok. induction Hall as [|entry d Hw _ IH]; csimpl.
  - constructor.
  - constructor; [by apply parse_placement_line | done].
Qed.

(** X22: a table written one entry per line, as the identifier, a space,
    the position and the line end, is read back: the result is the table of
    these entries, and when no read has two entries it is the very table
    written, in the same order. *)
Theorem placement_file_round_trip d :
  Forall (λ entry, is_word entry.1) d →
  read_reported_positions_text (placement_line <$> d) = Ok (read_reported_positions d) ∧
  (NoDup (dict_keys d) → read_reported_positions_text (placement_line <$> d) = Ok d).
Proof.
  intros Hall. split; [by apply read_placement_lines|].
  intros Hnd. rewrite read_placement_lines by done. f_equal.
  unfold read_reported_positions. by rewrite read_table_back.
Qed.

Lemma placement_file_round_trip_witness :
  read_reported_positions_text (placement_line <$> [("r1", Some 3); ("r2", None)]) =
    Ok [("r1", Some 3); ("r2", None)].
Proof.
  apply (placement_file_round_trip [("r1", Some 3); ("r2", None)]).
  - unfold is_word. by_compute.
  - by_compute.
Defined.
